(** * libtools: thread.hh (madag::sync), unionfind.hh and singleton.hh

    A shallow embedding of the three headers and the properties their
    specification states about them.

    - [Sync]: the wake flag [notifiable], the thread wrapper
      [PolymorphicThread] and the four pulsers.  A pulser's [run()] executes on
      its own thread, so it is embedded as a small-step machine over a program
      counter; the calls made by other threads ([interrupt], [wakeup]) and the
      passing of time are further events, and an execution of the system is a
      schedule: a list of events in the order in which they take effect.
    - [UnionFind]: the father map as a [gmap], [find] with path compression.
    - [Singleton]: the static [unique_ptr] slot. *)

From stdpp Require Import gmap list.

(* ===================================================================== *)
(** * Part I: the embedding                                               *)
(* ===================================================================== *)

Module Sync.

(** ** class notifiable

    Every member function holds [m_mutex] for its whole body, so each is one
    atomic action on [m_wake].  The condition variable carries no state of its
    own: [m_condition.wait(lock)] gives the mutex up, parks, and comes back
    holding the mutex again, after which the loop guard is evaluated anew. *)

Record notifiable := Notifiable { m_wake : bool }.

(** [bool m_wake = false;] *)
Definition notifiable_new : notifiable := Notifiable false.

(** [void notify()] *)
Definition notify (n : notifiable) : notifiable := Notifiable true.

(** [bool try_wait()] *)
Definition try_wait (n : notifiable) : bool * notifiable :=
  (m_wake n, Notifiable false).

(** One evaluation of the guard of [while (!m_wake) m_condition.wait(lock);]
    under the mutex: with the flag up the loop is left and [m_wake = false]
    runs ([Some]); with the flag down the caller parks ([None]). *)
Definition wait_poll (n : notifiable) : option notifiable :=
  if m_wake n then Some (Notifiable false) else None.

(** [void wait()] run by a caller while no other thread touches the object.
    [fuel] bounds how many times the caller may come back from
    [m_condition.wait] (spuriously, since nobody notifies) and test the guard
    again.  [None]: still parked when the fuel is gone. *)
Fixpoint wait (fuel : nat) (n : notifiable) : option notifiable :=
  match fuel with
  | 0 => None
  | S fuel' =>
      match wait_poll n with
      | Some n' => Some n'
      | None => wait fuel' n
      end
  end.

(** Calls on one flag by any number of threads, in the order in which they
    hold the mutex.  [Wait] is one evaluation of the guard by a thread that
    is inside [wait()]: it either returns or stays parked. *)
Inductive flag_op := Notify | TryWait | Wait.

(** Whether a call consumes a pending signal ([try_wait()] returning true,
    [wait()] returning), and the flag after it. *)
Definition flag_call (o : flag_op) (n : notifiable) : bool * notifiable :=
  match o with
  | Notify => (false, notify n)
  | TryWait => try_wait n
  | Wait =>
      match wait_poll n with
      | Some n' => (true, n')
      | None => (false, n)
      end
  end.

(** The flag after a history of calls. *)
Definition flag_after (h : list flag_op) (n : notifiable) : notifiable :=
  foldl (λ n o, snd (flag_call o n)) n h.

(** How many calls of a history consume a signal. *)
Fixpoint consumed (h : list flag_op) (n : notifiable) : nat :=
  match h with
  | [] => 0
  | o :: h' =>
      (if fst (flag_call o n) then 1 else 0) + consumed h' (snd (flag_call o n))
  end.

(** How many calls of a history are [notify()]. *)
Fixpoint notified (h : list flag_op) : nat :=
  match h with
  | [] => 0
  | Notify :: h' => S (notified h')
  | _ :: h' => notified h'
  end.

(** ** template<class... Args> class PolymorphicThread

    The member [std::thread m_thread] is embedded by what its owner can observe
    of it.  [None] is a handle that is not joinable (default constructed,
    joined or detached); [Some st] is a joinable handle to an execution of
    [run] that is still going ([Running]) or has returned ([Finished]).  The
    behaviour of the handle is the one the C++ standard gives [std::thread]:
    [join] and [detach] throw [std::system_error] (invalid_argument) on a handle
    that is not joinable, [join] blocks until the execution has completed, and
    move-assigning onto a joinable handle calls [std::terminate]. *)

Inductive thread_status := Running | Finished.

Record PolymorphicThread := Thread { m_thread : option thread_status }.

Inductive outcome (A : Type) :=
| Returns (a : A)        (* the call returns *)
| Blocks                 (* the caller is suspended *)
| ThrowsSystemError      (* std::system_error leaves the call *)
| Terminates.            (* std::terminate *)
Arguments Returns {A} a.
Arguments Blocks {A}.
Arguments ThrowsSystemError {A}.
Arguments Terminates {A}.

(** [PolymorphicThread()]: [m_thread] default constructed. *)
Definition thread_new : PolymorphicThread := Thread None.

(** [start(args...)]: [m_thread = std::thread(&PolymorphicThread::run, ...)] *)
Definition start (w : PolymorphicThread) : outcome PolymorphicThread :=
  match m_thread w with
  | Some _ => Terminates
  | None => Returns (Thread (Some Running))
  end.

(** [join()]: [m_thread.join()] *)
Definition join (w : PolymorphicThread) : outcome PolymorphicThread :=
  match m_thread w with
  | None => ThrowsSystemError
  | Some Running => Blocks
  | Some Finished => Returns (Thread None)
  end.

(** [detach()]: [m_thread.detach()] *)
Definition detach (w : PolymorphicThread) : outcome PolymorphicThread :=
  match m_thread w with
  | None => ThrowsSystemError
  | Some _ => Returns (Thread None)
  end.

(** [active()]: [m_thread.joinable()] *)
Definition active (w : PolymorphicThread) : bool :=
  match m_thread w with Some _ => true | None => false end.

(** The background execution of [run] returns. *)
Definition run_returns (w : PolymorphicThread) : PolymorphicThread :=
  match m_thread w with
  | Some Running => Thread (Some Finished)
  | _ => w
  end.

(** [virtual ~PolymorphicThread() = default]: the member [m_thread] is
    destroyed, and the destructor of a joinable [std::thread] calls
    [std::terminate]. *)
Definition destroy (w : PolymorphicThread) : outcome unit :=
  match m_thread w with
  | Some _ => Terminates
  | None => Returns tt
  end.

(** What a client and the background execution do to one worker, in order. *)
Inductive thread_op := Start | Join | Detach | RunReturns.

Definition thread_call (o : thread_op) (w : PolymorphicThread)
  : outcome PolymorphicThread :=
  match o with
  | Start => start w
  | Join => join w
  | Detach => detach w
  | RunReturns => Returns (run_returns w)
  end.

(** A history of calls.  A call that throws leaves the object as it was and
    the client carries on; a [join] that would block is not part of a
    history (the client is still inside it); [std::terminate] ends the
    process, so nothing can follow it. *)
Fixpoint replay (h : list thread_op) (w : PolymorphicThread)
  : option PolymorphicThread :=
  match h with
  | [] => Some w
  | o :: h' =>
      match thread_call o w with
      | Returns w' => replay h' w'
      | ThrowsSystemError => replay h' w
      | Blocks | Terminates => None
      end
  end.

(** The specification's words on the same history, read from its end:
    the worker is attached when it was started and neither joined nor detached
    since. *)
Fixpoint attached_rev (h : list thread_op) : bool :=
  match h with
  | [] => false
  | Start :: _ => true
  | RunReturns :: h' => attached_rev h'
  | (Join | Detach) :: _ => false
  end.
Definition attached (h : list thread_op) : bool := attached_rev (rev h).

(** Likewise: the execution started last has completed. *)
Fixpoint completed_rev (h : list thread_op) : bool :=
  match h with
  | [] => false
  | RunReturns :: _ => true
  | Start :: _ => false
  | (Join | Detach) :: h' => completed_rev h'
  end.
Definition completed (h : list thread_op) : bool := completed_rev (rev h).

(** ** Calls a [run()] routine makes, each stamped with the clock. *)

Inductive call :=
| sleep_for (at_time : nat) (d : nat)   (* std::this_thread::sleep_for(d) *)
| tick (at_time : nat).                 (* tick() *)

(** Times of the [tick()] calls in a log; a log has its latest call first. *)
Fixpoint tick_times (log : list call) : list nat :=
  match log with
  | [] => []
  | tick t :: log' => t :: tick_times log'
  | sleep_for _ _ :: log' => tick_times log'
  end.

Definition ticks (log : list call) : nat := length (tick_times log).

(** Number of [sleep_for] calls in a log. *)
Fixpoint sleeps (log : list call) : nat :=
  match log with
  | [] => 0
  | sleep_for _ _ :: log' => S (sleeps log')
  | tick _ :: log' => sleeps log'
  end.

(** Consecutive entries of a latest-first list of times lie at least [d]
    apart. *)
Fixpoint spaced (d : nat) (ts : list nat) : Prop :=
  match ts with
  | [] => True
  | t2 :: ts' =>
      match ts' with
      | [] => True
      | t1 :: _ => t1 + d ≤ t2 ∧ spaced d ts'
      end
  end.

(** ** template<class I> class ClockPulser : public PulserBase<>

    [std::this_thread::sleep_for(d)] called at time [t] returns at some time
    that is at least [t + d]: the thread sits at [Sleeping (t + d)] and can
    only move on once the clock has reached the deadline. *)
Module ClockPulser.

Inductive pc :=
| AtSleep                     (* loop head, about to call sleep_for *)
| Sleeping (deadline : nat)   (* inside sleep_for *)
| AtCheck                     (* about to read m_interrupted *)
| AtTick                      (* flag read as false, about to call tick() *)
| Returned.                   (* left the loop through break *)

Record state := State {
  m_interrupted : bool;       (* PulserBase: std::atomic<bool> *)
  m_interval : nat;
  at_ : pc;                   (* where the thread running run() stands *)
  now : nat;                  (* the clock *)
  calls : list call           (* calls made by run(), latest first *)
}.

(** [ClockPulser(_interval)] then [start()] at time [t0]. *)
Definition started (interval t0 : nat) : state :=
  State false interval AtSleep t0 [].

(** [PulserBase::interrupt()]: [m_interrupted = true;] *)
Definition interrupt (s : state) : state :=
  State true (m_interval s) (at_ s) (now s) (calls s).

Definition elapse (d : nat) (s : state) : state :=
  State (m_interrupted s) (m_interval s) (at_ s) (now s + d) (calls s).

Definition goto (p : pc) (s : state) : state :=
  State (m_interrupted s) (m_interval s) p (now s) (calls s).

Definition emit (c : call) (s : state) : state :=
  State (m_interrupted s) (m_interval s) (at_ s) (now s) (c :: calls s).

(** One step of
    [while (true) { sleep_for(m_interval); if (m_interrupted) { break; } tick(); }] *)
Definition run_step (s : state) : state :=
  match at_ s with
  | AtSleep =>
      goto (Sleeping (now s + m_interval s)) (emit (sleep_for (now s) (m_interval s)) s)
  | Sleeping deadline =>
      if decide (deadline ≤ now s) then goto AtCheck s else s
  | AtCheck =>
      if m_interrupted s then goto Returned s else goto AtTick s
  | AtTick => goto AtSleep (emit (tick (now s)) s)
  | Returned => s
  end.

Inductive event := Step | Interrupt | Elapse (d : nat).

Definition on_event (e : event) (s : state) : state :=
  match e with
  | Step => run_step s
  | Interrupt => interrupt s
  | Elapse d => elapse d s
  end.

Definition exec (sch : list event) (s : state) : state :=
  foldl (λ s e, on_event e s) s sch.

(** In a log (latest call first) every [tick()] comes directly after a
    [sleep_for(interval)] whose full length had passed when [tick()] was
    called. *)
Fixpoint paced (interval : nat) (log : list call) : Prop :=
  match log with
  | [] => True
  | tick t :: log' =>
      match log' with
      | sleep_for t' d :: _ => d = interval ∧ t' + d ≤ t
      | _ => False
      end ∧ paced interval log'
  | sleep_for _ _ :: log' => paced interval log'
  end.

(** What holds of a pulser started at [t0] from then on. *)
Definition inv (interval t0 : nat) (s : state) : Prop :=
  m_interval s = interval ∧ t0 ≤ now s ∧ paced interval (calls s) ∧
  Forall (λ t, t0 + interval ≤ t) (tick_times (calls s)) ∧
  match at_ s with
  | Sleeping deadline =>
      ∃ t' rest, calls s = sleep_for t' interval :: rest ∧
                 deadline = t' + interval ∧ t0 ≤ t'
  | AtCheck | AtTick =>
      ∃ t' rest, calls s = sleep_for t' interval :: rest ∧
                 t' + interval ≤ now s ∧ t0 ≤ t'
  | AtSleep | Returned => True
  end.



(** Time of the latest [tick()] in a log, [t0] when there is none. *)
Definition latest (t0 : nat) (log : list call) : nat :=
  default t0 (head (tick_times log)).

(** A pulser started at [t0] keeps to its interval. *)
Definition on_time (interval t0 : nat) (s : state) : Prop :=
  m_interval s = interval ∧ latest t0 (calls s) ≤ now s ∧
  t0 + ticks (calls s) * interval ≤ latest t0 (calls s) ∧
  spaced interval (tick_times (calls s)) ∧
  match at_ s with
  | Sleeping deadline =>
      ∃ t', deadline = t' + interval ∧ latest t0 (calls s) ≤ t' ≤ now s
  | AtCheck | AtTick =>
      ∃ t', latest t0 (calls s) ≤ t' ∧ t' + interval ≤ now s
  | AtSleep | Returned => True
  end.

(** After interrupt() at a moment when [k0] ticks had been made: only a tick
    that was already decided can still come. *)
Definition stopping (k0 : nat) (s : state) : Prop :=
  m_interrupted s = true ∧
  match at_ s with
  | AtTick => ticks (calls s) ≤ k0
  | _ => ticks (calls s) ≤ S k0
  end.

End ClockPulser.

(** ** class NotifiedPulser : public madag::sync::PulserBase<> *)
Module NotifiedPulser.

Inductive pc :=
| AtWait                      (* inside m_notifiablelock.wait() *)
| AtCheck                     (* wait() returned, about to read m_interrupted *)
| AtTick                      (* flag read as false, about to call tick() *)
| Returned.                   (* left the loop through break *)

Record state := State {
  m_interrupted : bool;
  m_notifiablelock : notifiable;
  at_ : pc;
  ticked : nat                (* number of tick() calls made by run() *)
}.

(** A constructed and started pulser. *)
Definition started : state := State false notifiable_new AtWait 0.

Definition interrupt (s : state) : state :=
  State true (m_notifiablelock s) (at_ s) (ticked s).

(** [wakeup()]: [m_notifiablelock.notify();] *)
Definition wakeup (s : state) : state :=
  State (m_interrupted s) (notify (m_notifiablelock s)) (at_ s) (ticked s).

(** [kill()]: [interrupt(); wakeup();] *)
Definition kill (s : state) : state := wakeup (interrupt s).

Definition goto (p : pc) (s : state) : state :=
  State (m_interrupted s) (m_notifiablelock s) p (ticked s).

(** One step of
    [for (;;) { m_notifiablelock.wait(); if (m_interrupted) { break; } tick(); }] *)
Definition run_step (s : state) : state :=
  match at_ s with
  | AtWait =>
      match wait_poll (m_notifiablelock s) with
      | Some n => State (m_interrupted s) n AtCheck (ticked s)
      | None => s
      end
  | AtCheck =>
      if m_interrupted s then goto Returned s else goto AtTick s
  | AtTick =>
      State (m_interrupted s) (m_notifiablelock s) AtWait (S (ticked s))
  | Returned => s
  end.

Inductive event := Step | Interrupt | Wakeup.

Definition on_event (e : event) (s : state) : state :=
  match e with
  | Step => run_step s
  | Interrupt => interrupt s
  | Wakeup => wakeup s
  end.

Definition exec (sch : list event) (s : state) : state :=
  foldl (λ s e, on_event e s) s sch.

(** Number of [Step] events in a schedule. *)
Fixpoint steps (sch : list event) : nat :=
  match sch with
  | [] => 0
  | Step :: sch' => S (steps sch')
  | _ :: sch' => steps sch'
  end.

(** Steps still needed to leave the loop once the flag is up and the wake
    flag cannot run dry. *)
Definition distance (s : state) : nat :=
  match at_ s with
  | AtTick => 3
  | AtWait => 2
  | AtCheck => 1
  | Returned => 0
  end.

(** The flag is up, and wherever the loop has a wait() ahead of it before the
    next check, a wakeup is pending. *)
Definition doomed (s : state) : Prop :=
  m_interrupted s = true ∧
  (at_ s = AtWait ∨ at_ s = AtTick → m_wake (m_notifiablelock s) = true).

(** With the flag up, a loop standing in wait() or at the check can only
    move towards the exit, and tick() is not called. *)
Definition leaving (t0 : nat) (s : state) : Prop :=
  m_interrupted s = true ∧ ticked s = t0 ∧
  (at_ s = AtWait ∨ at_ s = AtCheck ∨ at_ s = Returned).

(** A step of the loop taken while [~NotifiedPulser()] runs.  The class
    declares no [tick()]: the objects are of a derived class that defines it,
    and once the destructor of that class has run the object is a
    [NotifiedPulser] and nothing more.  The call at [AtTick] is then a call
    of the pure virtual [PulserBase::tick()], which ends in
    [std::terminate]: [None]. *)
Definition dying_step (s : state) : option state :=
  match at_ s with
  | AtTick => None
  | _ => Some (run_step s)
  end.

Definition dying_event (e : event) (s : state) : option state :=
  match e with
  | Step => dying_step s
  | _ => Some (on_event e s)
  end.

Fixpoint dying_exec (sch : list event) (s : state) : option state :=
  match sch with
  | [] => Some s
  | e :: sch' =>
      match dying_event e s with
      | Some s' => dying_exec sch' s'
      | None => None
      end
  end.

(** [~NotifiedPulser()], entered with the loop in state [s]:
    [kill();], that is [interrupt(); wakeup();], then
    [sleep_for(milliseconds(1))], then the destructors of the members and of
    the bases, of which [~PolymorphicThread] destroys the handle [w].  The
    loop and other threads do what [pre] says before [interrupt()] takes
    effect, what [mid] says between [interrupt()] and [wakeup()], and what
    [pause] says during the sleep.  The result is the state of the loop at
    the moment the handle is destroyed, or [Terminates]. *)
Definition destructor (w : PolymorphicThread) (pre mid pause : list event)
    (s : state) : outcome state :=
  match dying_exec (pre ++ Interrupt :: mid ++ Wakeup :: pause) s with
  | None => Terminates
  | Some s' =>
      match destroy w with
      | Returns _ => Returns s'
      | _ => Terminates
      end
  end.

(** Number of [Wakeup] events in a schedule. *)
Fixpoint wakeups (sch : list event) : nat :=
  match sch with
  | [] => 0
  | Wakeup :: sch' => S (wakeups sch')
  | _ :: sch' => wakeups sch'
  end.

(** An upper bound on the number of [tick()] calls a pulser can reach
    without a further wakeup(): those made, one for a wakeup that is pending
    and one for a wakeup that was consumed and not yet acted upon. *)
Definition credit (s : state) : nat :=
  ticked s + (if m_wake (m_notifiablelock s) then 1 else 0) +
  match at_ s with AtCheck | AtTick => 1 | _ => 0 end.

(** A loop that is not interrupted and, when [k0] ticks had been made, had a
    wakeup to serve: it has served it, or is on its way to. *)
Definition serving (k0 : nat) (s : state) : Prop :=
  m_interrupted s = false ∧ k0 ≤ ticked s ∧
  (k0 < ticked s ∨
   (at_ s ≠ Returned ∧ (at_ s = AtWait → m_wake (m_notifiablelock s) = true))).

(** Steps still needed until that wakeup is served. *)
Definition to_tick (k0 : nat) (s : state) : nat :=
  if decide (k0 < ticked s) then 0
  else match at_ s with
       | AtWait => 3
       | AtCheck => 2
       | AtTick => 1
       | Returned => 0
       end.

End NotifiedPulser.

(** ** template<class I> class DelayedNotifiedPulser : public NotifiedPulser *)
Module DelayedNotifiedPulser.

Inductive pc :=
| AtWait
| AtCheck
| AtTick
| AtDelay                     (* tick() returned, about to call sleep_for *)
| Delaying (deadline : nat)   (* inside sleep_for(m_delay) *)
| Returned.

Record state := State {
  m_interrupted : bool;
  m_notifiablelock : notifiable;
  m_delay : nat;
  at_ : pc;
  now : nat;
  calls : list call
}.

Definition started (delay t0 : nat) : state :=
  State false notifiable_new delay AtWait t0 [].

Definition interrupt (s : state) : state :=
  State true (m_notifiablelock s) (m_delay s) (at_ s) (now s) (calls s).

Definition wakeup (s : state) : state :=
  State (m_interrupted s) (notify (m_notifiablelock s)) (m_delay s) (at_ s)
        (now s) (calls s).

Definition kill (s : state) : state := wakeup (interrupt s).

Definition elapse (d : nat) (s : state) : state :=
  State (m_interrupted s) (m_notifiablelock s) (m_delay s) (at_ s)
        (now s + d) (calls s).

Definition goto (p : pc) (s : state) : state :=
  State (m_interrupted s) (m_notifiablelock s) (m_delay s) p (now s) (calls s).

Definition emit (c : call) (s : state) : state :=
  State (m_interrupted s) (m_notifiablelock s) (m_delay s) (at_ s) (now s)
        (c :: calls s).

(** One step of
    [for (;;) { m_notifiablelock.wait(); if (m_interrupted) { break; }
                tick(); sleep_for(m_delay); }] *)
Definition run_step (s : state) : state :=
  match at_ s with
  | AtWait =>
      match wait_poll (m_notifiablelock s) with
      | Some n =>
          State (m_interrupted s) n (m_delay s) AtCheck (now s) (calls s)
      | None => s
      end
  | AtCheck =>
      if m_interrupted s then goto Returned s else goto AtTick s
  | AtTick => goto AtDelay (emit (tick (now s)) s)
  | AtDelay =>
      goto (Delaying (now s + m_delay s)) (emit (sleep_for (now s) (m_delay s)) s)
  | Delaying deadline =>
      if decide (deadline ≤ now s) then goto AtWait s else s
  | Returned => s
  end.

Inductive event := Step | Interrupt | Wakeup | Elapse (d : nat).

Definition on_event (e : event) (s : state) : state :=
  match e with
  | Step => run_step s
  | Interrupt => interrupt s
  | Wakeup => wakeup s
  | Elapse d => elapse d s
  end.

Definition exec (sch : list event) (s : state) : state :=
  foldl (λ s e, on_event e s) s sch.

(** In a log (latest call first) [tick()] and [sleep_for(delay)] alternate,
    starting with a [tick()]: a sleep begins after the tick before it was
    called, and a tick is called only after the sleep before it had lasted
    its full length. *)
Fixpoint delayed (delay : nat) (log : list call) : Prop :=
  match log with
  | [] => True
  | tick t :: log' =>
      match log' with
      | [] => True
      | sleep_for t' d :: _ => d = delay ∧ t' + d ≤ t
      | tick _ :: _ => False
      end ∧ delayed delay log'
  | sleep_for t' d :: log' =>
      match log' with
      | tick t :: _ => d = delay ∧ t ≤ t'
      | _ => False
      end ∧ delayed delay log'
  end.

(** What holds of a started pulser from then on. *)
Definition inv (delay : nat) (s : state) : Prop :=
  m_delay s = delay ∧ delayed delay (calls s) ∧
  spaced delay (tick_times (calls s)) ∧
  match at_ s with
  | AtWait | AtCheck | AtTick | Returned =>
      calls s = [] ∨
      ∃ t' rest, calls s = sleep_for t' delay :: rest ∧ t' + delay ≤ now s
  | AtDelay => ∃ t rest, calls s = tick t :: rest ∧ t ≤ now s
  | Delaying deadline =>
      ∃ t' rest, calls s = sleep_for t' delay :: rest ∧ deadline = t' + delay
  end.

(** An upper bound on the number of [tick()] calls a pulser can reach
    without a further wakeup(): those made, one for a wakeup that is pending
    and one for a wakeup that was consumed and not yet acted upon. *)
Definition credit (s : state) : nat :=
  ticks (calls s) + (if m_wake (m_notifiablelock s) then 1 else 0) +
  match at_ s with AtCheck | AtTick => 1 | _ => 0 end.

(** Number of [Wakeup] events in a schedule. *)
Fixpoint wakeups (sch : list event) : nat :=
  match sch with
  | [] => 0
  | Wakeup :: sch' => S (wakeups sch')
  | _ :: sch' => wakeups sch'
  end.

(** A sleep of the loop ends at most one delay from now. *)
Definition due (delay : nat) (s : state) : Prop :=
  m_delay s = delay ∧
  match at_ s with
  | Delaying deadline => deadline ≤ now s + delay
  | _ => True
  end.

(** After kill() at a moment when [k0] ticks had been made: the flag is
    up, a wakeup is pending wherever the loop still has a wait() before its
    next check, and only a tick that was already decided can still come. *)
Definition killed (k0 : nat) (s : state) : Prop :=
  m_interrupted s = true ∧
  (at_ s = AtCheck ∨ at_ s = Returned ∨ m_wake (m_notifiablelock s) = true) ∧
  match at_ s with
  | AtTick => ticks (calls s) ≤ k0
  | _ => ticks (calls s) ≤ S k0
  end.

(** After interrupt() alone, the same without the pending wakeup. *)
Definition stopping (k0 : nat) (s : state) : Prop :=
  m_interrupted s = true ∧
  match at_ s with
  | AtTick => ticks (calls s) ≤ k0
  | _ => ticks (calls s) ≤ S k0
  end.

End DelayedNotifiedPulser.

(** ** template<class I> class SelfDeletingTimer : public PulserBase<>

    The object lives on the heap, carries the handle [m_thread] of its base
    [PolymorphicThread], and [run()] ends with [delete this].  [start()] is
    two calls, [PolymorphicThread::start()] and [PolymorphicThread::detach()],
    and the new thread runs from the first of them on: both are events of
    their own, and the steps of [run()] may fall between them.

    An execution can come to three ends.  It can go on; it can end in
    [std::terminate] (a joinable [std::thread] is destroyed or assigned to);
    or it has no defined behaviour, because a member is used after
    [delete this] or because [run()] is entered a second time on the same
    object, where the two executions would both end in [delete this]. *)
Module SelfDeletingTimer.

Inductive pc :=
| NotStarted                  (* no thread yet *)
| AtSleep
| Sleeping (deadline : nat)
| AtCheck                     (* about to evaluate !m_interrupted *)
| AtTick                      (* about to call tick(), that is m_callback() *)
| AtDelete                    (* about to run delete this *)
| Returned.

Record state := State {
  handle : PolymorphicThread; (* the base subobject, with m_thread *)
  m_interrupted : bool;
  m_interval : nat;
  at_ : pc;
  now : nat;
  calls : list call;          (* tick t: m_callback() was called at time t *)
  deleted : bool              (* delete this has run *)
}.

Inductive fate :=
| Going (s : state)           (* defined up to here *)
| Terminated (s : state)      (* std::terminate was called in state s *)
| Undefined.

(** The state an execution has reached, when it has one. *)
Definition reached (r : fate) : option state :=
  match r with
  | Going s | Terminated s => Some s
  | Undefined => None
  end.

(** [factory(_interval, _callback)] at time [t0]. *)
Definition created (interval t0 : nat) : state :=
  State thread_new false interval NotStarted t0 [] false.

(** [PulserBase::interrupt()] on the timer. *)
Definition interrupt (s : state) : fate :=
  if deleted s then Undefined
  else Going (State (handle s) true (m_interval s) (at_ s) (now s) (calls s)
                    (deleted s)).

(** [PolymorphicThread::start()] on the timer: the handle is assigned a new
    thread, which enters [run()]. *)
Definition spawn (s : state) : fate :=
  if deleted s then Undefined
  else match Sync.start (handle s) with
       | Returns w =>
           match at_ s with
           | NotStarted =>
               Going (State w (m_interrupted s) (m_interval s) AtSleep (now s)
                            (calls s) (deleted s))
           | _ => Undefined
           end
       | _ => Terminated s
       end.

(** [PolymorphicThread::detach()] on the timer; when it throws, the
    exception leaves the call and the object is as before. *)
Definition release (s : state) : fate :=
  if deleted s then Undefined
  else match Sync.detach (handle s) with
       | Returns w =>
           Going (State w (m_interrupted s) (m_interval s) (at_ s) (now s)
                        (calls s) (deleted s))
       | _ => Going s
       end.

Definition elapse (d : nat) (s : state) : state :=
  State (handle s) (m_interrupted s) (m_interval s) (at_ s) (now s + d)
        (calls s) (deleted s).

Definition goto (p : pc) (s : state) : state :=
  State (handle s) (m_interrupted s) (m_interval s) p (now s) (calls s)
        (deleted s).

Definition emit (c : call) (s : state) : state :=
  State (handle s) (m_interrupted s) (m_interval s) (at_ s) (now s)
        (c :: calls s) (deleted s).

(** One step of
    [sleep_for(m_interval); if (!m_interrupted) tick(); delete this;]
    where [delete this] runs the destructors, the last of which destroys the
    handle, and then frees the object. *)
Definition run_step (s : state) : fate :=
  match at_ s with
  | NotStarted => Going s
  | AtSleep =>
      Going (goto (Sleeping (now s + m_interval s))
                  (emit (sleep_for (now s) (m_interval s)) s))
  | Sleeping deadline =>
      Going (if decide (deadline ≤ now s) then goto AtCheck s else s)
  | AtCheck =>
      Going (if negb (m_interrupted s) then goto AtTick s else goto AtDelete s)
  | AtTick => Going (goto AtDelete (emit (tick (now s)) s))
  | AtDelete =>
      match destroy (handle s) with
      | Returns _ =>
          Going (State (handle s) (m_interrupted s) (m_interval s) Returned
                       (now s) (calls s) true)
      | _ => Terminated s
      end
  | Returned => Going s
  end.

(** [Spawn] and [Detach] are the two statements of [start()]. *)
Inductive event := Spawn | Detach | Step | Interrupt | Elapse (d : nat).

Definition on_event (e : event) (s : state) : fate :=
  match e with
  | Spawn => spawn s
  | Detach => release s
  | Step => run_step s
  | Interrupt => interrupt s
  | Elapse d => Going (elapse d s)
  end.

Fixpoint exec (sch : list event) (s : state) : fate :=
  match sch with
  | [] => Going s
  | e :: sch' =>
      match on_event e s with
      | Going s' => exec sch' s'
      | r => r
      end
  end.

(** [start()]: [PolymorphicThread::start(); PolymorphicThread::detach();]
    with, between the two calls, what the schedule [mid] says. *)
Definition start (mid : list event) (s : state) : fate :=
  exec (Spawn :: mid ++ [Detach]) s.



(** What holds of a timer whose thread was created at [t0], for as long as
    the execution has a state. *)
Definition inv (interval t0 : nat) (s : state) : Prop :=
  m_interval s = interval ∧ t0 ≤ now s ∧
  (deleted s = true → active (handle s) = false) ∧
  match at_ s with
  | NotStarted => False
  | AtSleep => calls s = [] ∧ deleted s = false
  | Sleeping deadline =>
      ∃ t', calls s = [sleep_for t' interval] ∧ deadline = t' + interval ∧
            t0 ≤ t' ≤ now s ∧ deleted s = false
  | AtCheck | AtTick =>
      ∃ t', calls s = [sleep_for t' interval] ∧ t0 ≤ t' ∧
            t' + interval ≤ now s ∧ deleted s = false
  | AtDelete | Returned =>
      ∃ t', t0 ≤ t' ∧ t' + interval ≤ now s ∧
            ((m_interrupted s = true ∧ calls s = [sleep_for t' interval]) ∨
             (∃ t, calls s = [tick t; sleep_for t' interval] ∧ t' + interval ≤ t)) ∧
            deleted s = (if at_ s is Returned then true else false)
  end.

(** What holds once interrupt() was called on a timer that had not reached
    its check. *)
Definition cancelled (s : state) : Prop :=
  m_interrupted s = true ∧ ticks (calls s) = 0 ∧ at_ s ≠ AtTick.

End SelfDeletingTimer.

End Sync.

(** ** template<typename T> class UnionFind (unionfind.hh) *)
Module UnionFind.
Section WithElements.
Context `{Countable T}.

(** [m_mapping] maps an element to its father; an element without an entry
    is a root.  The state of the structure is that one container. *)

(** [const T& find(const T& a)].  [m_mapping.at(a)] throws when [a] has no
    father, and the handler returns [a]; otherwise the root of the father is
    looked up first and then stored as the new father of [a].  The recursion
    of the source has no bound of its own (it does not return on a cyclic
    container): [fuel] bounds its depth and [None] is a recursion cut off. *)
Fixpoint find_rec (fuel : nat) (m : gmap T T) (a : T) : option (T * gmap T T) :=
  match m !! a with
  | None => Some (a, m)
  | Some father =>
      match fuel with
      | 0 => None
      | S fuel' =>
          match find_rec fuel' m father with
          | Some (ra, m') => Some (ra, <[a := ra]> m')
          | None => None
          end
      end
  end.

(** A chain of fathers without a cycle visits each key at most once, so the
    number of entries is depth enough. *)
Definition find (m : gmap T T) (a : T) : option (T * gmap T T) :=
  find_rec (size m) m a.

(** [m_mapping.emplace(k, v)]: no effect when [k] already has an entry. *)
Definition emplace (k v : T) (m : gmap T T) : gmap T T :=
  match m !! k with
  | Some _ => m
  | None => <[k := v]> m
  end.

(** What is read through the reference [find(a)] returned: it designates the
    entry of [a] when there is one and the argument [a] itself otherwise. *)
Definition through (m : gmap T T) (a : T) : T := default a (m !! a).

(** [const UnionFind& merge(const T& a, const T& b)].  [ra] is a reference
    obtained before [find(b)] runs and read after it, hence through the
    container as [find(b)] left it. *)
Definition merge (m : gmap T T) (a b : T) : option (gmap T T) :=
  match find m a with
  | None => None
  | Some (_, m1) =>
      match find m1 b with
      | None => None
      | Some (_, m2) =>
          let ra := through m2 a in
          let rb := through m2 b in
          if decide (ra ≠ rb) then Some (emplace rb ra m2) else Some m2
      end
  end.

(** The root [find(a)] reports, the container put aside. *)
Definition root (m : gmap T T) (a : T) : option T := fst <$> find m a.

(** Calls on one structure, from its construction on. *)
Inductive op := Find (a : T) | Merge (a b : T).

Definition apply (o : op) (m : gmap T T) : option (gmap T T) :=
  match o with
  | Find a => snd <$> find m a
  | Merge a b => merge m a b
  end.

Fixpoint run (ops : list op) (m : gmap T T) : option (gmap T T) :=
  match ops with
  | [] => Some m
  | o :: ops' =>
      match apply o m with
      | Some m' => run ops' m'
      | None => None
      end
  end.

(** The elements handed to [merge] in a list of calls. *)
Fixpoint merged (ops : list op) : list T :=
  match ops with
  | [] => []
  | Find _ :: ops' => merged ops'
  | Merge a b :: ops' => a :: b :: merged ops'
  end.

(** The root of an element, read off the container without changing it:
    follow fathers until an element has none. *)
Inductive root_of (m : gmap T T) : T → T → Prop :=
| root_here r : m !! r = None → root_of m r r
| root_up a father r : m !! a = Some father → root_of m father r → root_of m a r.

(** Every element has a root: no chain of fathers runs into a cycle. *)
Definition forest (m : gmap T T) : Prop := ∀ a, ∃ r, root_of m a r.

(** [root_of] with the number of fathers passed on the way. *)
Inductive root_at (m : gmap T T) : T → T → nat → Prop :=
| root_at_here r : m !! r = None → root_at m r r 0
| root_at_up a father r d :
    m !! a = Some father → root_at m father r d → root_at m a r (S d).

(** [m'] gives every element the root [m] gives it. *)
Definition same_roots (m m' : gmap T T) : Prop :=
  ∀ x r, root_of m' x r ↔ root_of m x r.

(** [m'] is [m] with some fathers replaced by the root of their element. *)
Definition compressed (m m' : gmap T T) : Prop :=
  ∀ k, m' !! k = m !! k ∨
       (is_Some (m !! k) ∧ ∃ r, root_of m k r ∧ m' !! k = Some r).

(** All entries of [m] lie within [P]. *)
Definition within (P : T → Prop) (m : gmap T T) : Prop :=
  ∀ k v, m !! k = Some v → P k ∧ P v.

(** The least equivalence that relates the two arguments of every
    [merge] in a list of calls. *)
Inductive linked (ops : list op) : T → T → Prop :=
| linked_refl x : linked ops x x
| linked_merge a b : Merge a b ∈ ops → linked ops a b
| linked_sym x y : linked ops x y → linked ops y x
| linked_trans x y z : linked ops x y → linked ops y z → linked ops x z.

(** The same starting from the components of a container [m0]. *)
Inductive joined (m0 : gmap T T) (ops : list op) : T → T → Prop :=
| joined_before x y r : root_of m0 x r → root_of m0 y r → joined m0 ops x y
| joined_merge a b : Merge a b ∈ ops → joined m0 ops a b
| joined_sym x y : joined m0 ops x y → joined m0 ops y x
| joined_trans x y z : joined m0 ops x y → joined m0 ops y z → joined m0 ops x z.

End WithElements.
End UnionFind.

(** ** template<typename T> class Singleton (singleton.hh) *)
Module Singleton.

Inductive result (A : Type) :=
| Ok (a : A)
| RuntimeError.                   (* throw std::runtime_error(...) *)
Arguments Ok {A} a.
Arguments RuntimeError {A}.

Section WithInstance.
Context {T Args : Type}.

(** [new T(std::forward<Args>(args)...)]: [None] when the constructor of [T]
    throws. *)
Variable construct : Args → option T.

(** An object on the heap: which allocation it is, and its value. *)
Record instance := Instance { serial : nat; value : T }.

Record state := State {
  _singleton : option instance;   (* std::unique_ptr<T>; None is nullptr *)
  allocations : nat               (* objects built so far *)
}.

(** [_singleton = nullptr] *)
Definition initial : state := State None 0.

(** [static T& init(Args&&... args)]; [None]: the constructor threw and
    [_singleton] was not assigned. *)
Definition init (args : Args) (s : state) : option (instance * state) :=
  match construct args with
  | None => None
  | Some v =>
      let i := Instance (allocations s) v in
      Some (i, State (Some i) (S (allocations s)))
  end.

(** [static T& get()] *)
Definition get (s : state) : result instance :=
  match _singleton s with
  | None => RuntimeError
  | Some i => Ok i
  end.

(** [static bool initialized()] *)
Definition initialized (s : state) : bool :=
  match _singleton s with Some _ => true | None => false end.

(** [static void kill()]: [_singleton.reset();] *)
Definition kill (s : state) : state := State None (allocations s).

Inductive op := Init (args : Args) | Get | Initialized | Kill.

(** A call that throws leaves the state as it was. *)
Definition apply (o : op) (s : state) : state :=
  match o with
  | Init args => match init args s with Some (_, s') => s' | None => s end
  | Get | Initialized => s
  | Kill => kill s
  end.

Definition run (ops : list op) (s : state) : state :=
  foldl (λ s o, apply o s) s ops.

Definition is_init (o : op) : bool :=
  match o with Init _ => true | _ => false end.

(** The specification's words on a history, read from its end: an instance
    exists when [init] was called (and succeeded) and [kill] was not called
    since. *)
Fixpoint instance_exists_rev (h : list op) : bool :=
  match h with
  | [] => false
  | Init args :: h' =>
      match construct args with
      | Some _ => true
      | None => instance_exists_rev h'
      end
  | Kill :: _ => false
  | (Get | Initialized) :: h' => instance_exists_rev h'
  end.
Definition instance_exists (h : list op) : bool := instance_exists_rev (rev h).

(** Number of calls of [init] in a history whose constructor returned. *)
Fixpoint built (h : list op) : nat :=
  match h with
  | [] => 0
  | Init args :: h' =>
      match construct args with Some _ => 1 | None => 0 end + built h'
  | _ :: h' => built h'
  end.

(** Calls that are neither [kill] nor an [init] whose constructor returns. *)
Definition idle (o : op) : bool :=
  match o with
  | Kill => false
  | Init args => match construct args with Some _ => false | None => true end
  | Get | Initialized => true
  end.

End WithInstance.
End Singleton.


(* ===================================================================== *)
(** * Part II: properties                                                 *)
(* ===================================================================== *)

Section NotifiableFacts.
Import Sync.

Lemma notify_absorbs (k : nat) (n : notifiable) :
  Nat.iter (S k) notify n = notify n.
Proof. induction k as [|k IH]; [done|]. by rewrite Nat.iter_succ, IH. Qed.

Lemma wait_signaled (fuel : nat) (n : notifiable) :
  m_wake n = true → wait (S fuel) n = Some (Notifiable false).
Proof. intros Hw. cbn. unfold wait_poll. by rewrite Hw. Qed.

Lemma wait_unsignaled (fuel : nat) (n : notifiable) :
  m_wake n = false → wait fuel n = None.
Proof.
  intros Hw. induction fuel as [|fuel IH]; [done|].
  cbn. unfold wait_poll. by rewrite Hw.
Qed.

(** C1. Any number N >= 1 of notify() calls leaves the flag exactly as one
    call does (a single pending wakeup); the wait() that follows returns,
    whatever the number of guard evaluations it is allowed, with the flag
    reset to unsignaled; and the wait() after that, with no new notify(),
    never returns while try_wait() would report that nothing is pending. *)
Theorem notifiable_signals_coalesce (N : nat) (n0 : notifiable) :
  1 ≤ N →
  let n1 := Nat.iter N notify n0 in
  n1 = notify n0 ∧
  ∃ n2,
    (∀ fuel, 1 ≤ fuel → wait fuel n1 = Some n2) ∧
    m_wake n2 = false ∧
    (∀ fuel, wait fuel n2 = None) ∧
    fst (try_wait n2) = false.
Proof.
  intros HN n1. subst n1. destruct N as [|k]; [lia|].
  rewrite notify_absorbs. split; [done|].
  exists (Notifiable false). repeat split.
  - intros [|fuel] Hf; [lia|]. by apply wait_signaled.
  - intros fuel. by apply wait_unsignaled.
Qed.

Lemma notifiable_signals_coalesce_witness :
  1 ≤ 3 ∧
  Nat.iter 3 notify notifiable_new = notify notifiable_new ∧
  ∃ n2,
    (∀ fuel, 1 ≤ fuel → wait fuel (Nat.iter 3 notify notifiable_new) = Some n2) ∧
    m_wake n2 = false ∧
    (∀ fuel, wait fuel n2 = None) ∧
    fst (try_wait n2) = false.
Proof.
  split; [lia|]. apply (notifiable_signals_coalesce 3 notifiable_new). lia.
Defined.

End NotifiableFacts.

(** ** PolymorphicThread *)
Section ThreadFacts.
Import Sync.

Lemma replay_snoc (h : list thread_op) (o : thread_op) (w0 : PolymorphicThread) :
  replay (h ++ [o]) w0 = replay h w0 ≫= λ w, replay [o] w.
Proof.
  revert w0. induction h as [|o' h IH]; intros w0.
  - reflexivity.
  - cbn [app replay]. destruct (thread_call o' w0); try apply IH; done.
Qed.

Lemma attached_snoc (h : list thread_op) (o : thread_op) :
  attached (h ++ [o]) = attached_rev (o :: rev h).
Proof. unfold attached. by rewrite rev_unit. Qed.

Lemma completed_snoc (h : list thread_op) (o : thread_op) :
  completed (h ++ [o]) = completed_rev (o :: rev h).
Proof. unfold completed. by rewrite rev_unit. Qed.

Lemma attached_never_started (h : list thread_op) :
  Start ∉ h → attached h = false.
Proof.
  induction h as [|o h IH] using rev_ind; [done|].
  intros Hnot. rewrite attached_snoc.
  destruct o; cbn; try done.
  - exfalso. apply Hnot. set_solver.
  - apply IH. set_solver.
Qed.

(** The handle after a history is the one the history describes. *)
Lemma replay_handle (h : list thread_op) (w : PolymorphicThread) :
  replay h thread_new = Some w →
  m_thread w =
    if attached h then Some (if completed h then Finished else Running)
    else None.
Proof.
  revert w. induction h as [|o h IH] using rev_ind; intros w.
  - intros [= <-]. done.
  - rewrite replay_snoc. destruct (replay h thread_new) as [w1|] eqn:Hh; [|done].
    specialize (IH w1 eq_refl). cbn [mbind option_bind].
    rewrite attached_snoc, completed_snoc.
    fold (attached h) in *. fold (completed h) in *.
    destruct w1 as [t]. cbn in IH. subst t.
    destruct o; cbn; unfold start, join, detach, run_returns; cbn;
      fold (attached h); fold (completed h);
      destruct (attached h), (completed h); cbn; intros [= <-]; done.
Qed.

(** C8. After any history of calls on a worker, join() throws exactly when
    the worker is not attached (never started, or joined or detached since it
    was started); on an attached worker it blocks while the background
    execution is going and returns once that has completed, leaving a handle
    on which a further join() throws. *)
Theorem join_blocks_or_throws (h : list thread_op) (w : PolymorphicThread) :
  replay h thread_new = Some w →
  join w =
    (if attached h
     then if completed h then Returns thread_new else Blocks
     else ThrowsSystemError) ∧
  join thread_new = ThrowsSystemError ∧
  (Start ∉ h → join w = ThrowsSystemError) ∧
  (∀ w', replay (h ++ [Join]) thread_new = Some w' → join w' = ThrowsSystemError) ∧
  (∀ w', replay (h ++ [Detach]) thread_new = Some w' → join w' = ThrowsSystemError).
Proof.
  intros Hh.
  assert (Hjoin : ∀ h w, replay h thread_new = Some w →
    join w = (if attached h
              then if completed h then Returns thread_new else Blocks
              else ThrowsSystemError)).
  { clear. intros h w Hh. apply replay_handle in Hh. unfold join. rewrite Hh.
    by destruct (attached h), (completed h). }
  split; [by apply Hjoin|]. split; [done|]. split; [|split].
  - intros Hns. rewrite (Hjoin _ _ Hh). by rewrite attached_never_started.
  - intros w' Hw'. rewrite (Hjoin _ _ Hw'). by rewrite attached_snoc.
  - intros w' Hw'. rewrite (Hjoin _ _ Hw'). by rewrite attached_snoc.
Qed.

Lemma join_blocks_or_throws_witness :
  replay [Start; RunReturns] thread_new = Some (Thread (Some Finished)) ∧
  join (Thread (Some Finished)) = Returns thread_new.
Proof.
  split; [reflexivity|].
  exact (proj1 (join_blocks_or_throws [Start; RunReturns] _ eq_refl)).
Defined.

End ThreadFacts.

(** ** Singleton *)
Section SingletonFacts.
Context {T Args : Type} (construct : Args → option T).
Import Singleton.

Abbreviation run := (Singleton.run construct).
Abbreviation init := (Singleton.init construct).
Abbreviation instance_exists := (Singleton.instance_exists construct).

Lemma singleton_run_snoc (h : list op) (o : op) (s : @state T) :
  run (h ++ [o]) s = apply construct o (run h s).
Proof. unfold Singleton.run. by rewrite foldl_app. Qed.

Lemma instance_exists_snoc (h : list op) (o : op) :
  instance_exists (h ++ [o]) = instance_exists_rev construct (o :: rev h).
Proof. unfold Singleton.instance_exists. by rewrite rev_unit. Qed.

(** The slot holds an object exactly when the history says one exists. *)
Lemma slot_tracks_history (h : list op) :
  initialized (run h initial) = instance_exists h.
Proof.
  induction h as [|o h IH] using rev_ind; [done|].
  rewrite singleton_run_snoc, instance_exists_snoc.
  destruct o as [args| | |]; cbn; try done.
  unfold Singleton.init. destruct (construct args); [done|]. exact IH.
Qed.

Lemma get_initialized (s : @state T) :
  get s = RuntimeError ↔ initialized s = false.
Proof. unfold get, initialized. destruct (_singleton s); split; done. Qed.

Lemma no_init_no_instance (h : list op) :
  Forall (λ o, is_init o = false) h → instance_exists_rev construct (rev h) = false.
Proof.
  induction h as [|o h IH] using rev_ind; [done|].
  rewrite Forall_app, Forall_singleton. intros [Hh Ho].
  rewrite rev_unit. destruct o; cbn; try done; by apply IH.
Qed.

(** C10. After any history of calls, get() throws exactly when no instance
    exists, that is when init() never succeeded or kill() was called after
    the last init(); initialized() tells the two cases apart.  When init(args)
    succeeds, get() then returns the very object init() built and
    initialized() is true; kill() after it makes get() throw again. *)
Theorem get_raises_iff_no_instance (h : list op) :
  let s := run h initial in
  (get s = RuntimeError ↔ instance_exists h = false) ∧
  initialized s = instance_exists h ∧
  (Forall (λ o, is_init o = false) h → get s = RuntimeError) ∧
  (∀ h', Forall (λ o, is_init o = false) h' →
         get (run (h ++ Kill :: h') initial) = RuntimeError) ∧
  (∀ args i s', init args s = Some (i, s') →
     get s' = Ok i ∧ initialized s' = true ∧
     get (kill s') = RuntimeError ∧ initialized (kill s') = false).
Proof.
  intros s. subst s. repeat split.
  - rewrite get_initialized, slot_tracks_history. done.
  - rewrite get_initialized, slot_tracks_history. done.
  - apply slot_tracks_history.
  - intros Hno. apply get_initialized. rewrite slot_tracks_history.
    by apply no_init_no_instance.
  - intros h' Hno. apply get_initialized. rewrite slot_tracks_history.
    unfold Singleton.instance_exists.
    rewrite rev_app_distr. cbn [rev]. rewrite <- app_assoc. cbn [app].
    induction h' as [|o h' IH] using rev_ind; [done|].
    rewrite Forall_app, Forall_singleton in Hno. destruct Hno as [Hh' Ho].
    rewrite rev_unit. destruct o; cbn; try done; by apply IH.
  - unfold Singleton.init in *. destruct (construct args); [|done].
    by simplify_eq.
  - unfold Singleton.init in *. destruct (construct args); [|done].
    by simplify_eq.
Qed.

End SingletonFacts.

Lemma get_raises_iff_no_instance_witness :
  let ctor := λ n : nat, if decide (n = 0) then None else Some n in
  let i := Singleton.Instance 1 7 in
  let s := Singleton.run ctor
             [Singleton.Init 0; Singleton.Init 5; Singleton.Get; Singleton.Kill]
             Singleton.initial in
  Singleton.init ctor 7 s = Some (i, Singleton.State (Some i) 2) ∧
  Singleton.get (Singleton.State (Some i) 2) = Singleton.Ok i.
Proof.
  intros ctor i s. split; [reflexivity|].
  exact (proj1 (proj2 (proj2 (proj2 (proj2
    (get_raises_iff_no_instance ctor
       [Singleton.Init 0; Singleton.Init 5; Singleton.Get; Singleton.Kill]))))
    7 i (Singleton.State (Some i) 2) eq_refl)).
Defined.

(** ** NotifiedPulser *)
Section NotifiedPulserFacts.
Import Sync Sync.NotifiedPulser.

Lemma np_exec_app (a b : list event) (s : state) :
  exec (a ++ b) s = exec b (exec a s).
Proof. unfold exec. by rewrite foldl_app. Qed.

Lemma np_doomed_event (e : event) (s : state) :
  doomed s →
  doomed (on_event e s) ∧
  distance (on_event e s) ≤ distance s - (if e is Step then 1 else 0).
Proof.
  intros [Hi Hw]. destruct s as [i [w] p t]. cbn in Hi, Hw. subst i.
  unfold doomed, distance.
  destruct e, p; cbn; unfold wait_poll; cbn;
    try (rewrite Hw by auto); cbn; repeat split; auto; try lia; intros [?|?]; done.
Qed.

Lemma np_countdown (sch : list event) (s : state) :
  doomed s →
  doomed (exec sch s) ∧ distance (exec sch s) ≤ distance s - steps sch.
Proof.
  revert s. induction sch as [|e sch IH]; intros s Hd.
  - cbn. split; [done|lia].
  - destruct (np_doomed_event e s Hd) as [Hd' Hle].
    destruct (IH _ Hd') as [Hd'' Hle']. split; [done|].
    change (exec (e :: sch) s) with (exec sch (on_event e s)).
    destruct e; cbn [steps] in *; lia.
Qed.

Lemma np_distance_le (s : state) : distance s ≤ 3.
Proof. unfold distance. destruct (at_ s); lia. Qed.

Lemma np_distance_0 (s : state) : distance s = 0 → at_ s = Returned.
Proof. unfold distance. by destruct (at_ s). Qed.

Lemma np_interrupted_stays (sch : list event) (s : state) :
  m_interrupted s = true → m_interrupted (exec sch s) = true.
Proof.
  revert s. induction sch as [|e sch IH]; intros s Hi; [done|].
  apply IH. destruct e; cbn; try done.
  unfold run_step. destruct (at_ s); cbn; try done.
  - by destruct (wait_poll _).
  - by rewrite Hi.
Qed.

Lemma np_leaving_exec (t0 : nat) (sch : list event) (s : state) :
  leaving t0 s → leaving t0 (exec sch s).
Proof.
  revert s. induction sch as [|e sch IH]; intros s Hl; [done|].
  apply IH. destruct Hl as (Hi & Ht & Hp).
  destruct s as [i [w] p t]. cbn in Hi, Ht, Hp. subst i t.
  unfold leaving.
  destruct Hp as [-> | [-> | ->]];
    destruct e; cbn; unfold wait_poll; cbn; try destruct w; cbn; auto.
Qed.

(** Without a wakeup, a loop parked in wait() stays parked. *)
Lemma np_parked (sch : list event) (s : state) :
  at_ s = AtWait → m_wake (m_notifiablelock s) = false → Wakeup ∉ sch →
  at_ (exec sch s) = AtWait ∧ ticked (exec sch s) = ticked s ∧
  m_wake (m_notifiablelock (exec sch s)) = false.
Proof.
  revert s. induction sch as [|e sch IH]; intros s Hp Hw Hno; [done|].
  change (exec (e :: sch) s) with (exec sch (on_event e s)).
  apply not_elem_of_cons in Hno as [He Hno].
  destruct s as [i [w] p t]. cbn in Hp, Hw. subst p w.
  destruct e; [| |done]; cbn; apply IH; done.
Qed.

(** kill() while tick() is about to be called: that one tick still runs,
    then the loop leaves. *)
Example np_kill_before_tick :
  exec [Wakeup; Step; Step; Interrupt; Wakeup; Step; Step; Step] started
    = State true notifiable_new Returned 1.
Proof. reflexivity. Qed.

(** C2. kill() raises the cancellation flag and the wake flag.  However the
    two stores of kill() interleave with the loop and with other callers: a
    loop that stood in wait() when kill() began calls tick() no more and has
    returned after two further steps; a loop caught anywhere else has
    returned after three.  Once the loop has read the flag as set it has
    returned and tick() is never called again.  After a bare interrupt() on
    a loop parked in wait() with nothing pending, the loop stays parked for
    as long as no wakeup() comes, and the first wakeup() lets it return. *)
Theorem kill_releases_the_loop (s : state) :
  (m_interrupted (kill s) = true ∧ m_wake (m_notifiablelock (kill s)) = true ∧
   exec [Interrupt; Wakeup] s = kill s) ∧
  (∀ mid post, at_ s = AtWait →
     let s' := exec (Interrupt :: mid ++ Wakeup :: post) s in
     ticked s' = ticked s ∧ (2 ≤ steps post → at_ s' = Returned)) ∧
  (∀ mid post, 3 ≤ steps post →
     at_ (exec (Interrupt :: mid ++ Wakeup :: post) s) = Returned) ∧
  (∀ sch, at_ s = AtCheck → m_interrupted s = true →
     at_ (run_step s) = Returned ∧
     at_ (exec sch (run_step s)) = Returned ∧
     ticked (exec sch (run_step s)) = ticked s) ∧
  (∀ sch post, at_ s = AtWait → m_wake (m_notifiablelock s) = false →
     Wakeup ∉ sch →
     at_ (exec (Interrupt :: sch) s) = AtWait ∧
     ticked (exec (Interrupt :: sch) s) = ticked s ∧
     (2 ≤ steps post →
      at_ (exec (Interrupt :: sch ++ Wakeup :: post) s) = Returned)).
Proof.
  assert (Hkill : ∀ mid, doomed (exec (Interrupt :: mid ++ [Wakeup]) s)).
  { intros mid. change (Interrupt :: mid ++ [Wakeup]) with ([Interrupt] ++ mid ++ [Wakeup]).
    rewrite !np_exec_app. split.
    - apply (np_interrupted_stays [Wakeup]), np_interrupted_stays. done.
    - done. }
  assert (Hwait : ∀ mid post, at_ s = AtWait →
     let s' := exec (Interrupt :: mid ++ Wakeup :: post) s in
     ticked s' = ticked s ∧ (2 ≤ steps post → at_ s' = Returned)).
  { intros mid post Hp s'.
    assert (Hl : leaving (ticked s) (exec [Interrupt] s)).
    { unfold leaving. cbn. auto. }
    assert (Hl1 : leaving (ticked s) (exec (Interrupt :: mid ++ [Wakeup]) s)).
    { change (Interrupt :: mid ++ [Wakeup]) with ([Interrupt] ++ (mid ++ [Wakeup])).
      rewrite np_exec_app. by apply np_leaving_exec. }
    assert (Hl2 : leaving (ticked s) s').
    { subst s'. replace (Interrupt :: mid ++ Wakeup :: post)
        with ((Interrupt :: mid ++ [Wakeup]) ++ post)
        by (cbn; by rewrite <- app_assoc).
      rewrite np_exec_app. by apply np_leaving_exec. }
    split; [apply Hl2|]. intros Hsteps.
    subst s'. replace (Interrupt :: mid ++ Wakeup :: post)
        with ((Interrupt :: mid ++ [Wakeup]) ++ post) in *
        by (cbn; by rewrite <- app_assoc).
    rewrite np_exec_app in *.
    destruct (np_countdown post _ (Hkill mid)) as [_ Hle].
    apply np_distance_0.
    assert (distance (exec (Interrupt :: mid ++ [Wakeup]) s) ≤ 2).
    { destruct Hl1 as (_ & _ & [Hq|[Hq|Hq]]); unfold distance; rewrite Hq; lia. }
    lia. }
  split; [done|]. split; [exact Hwait|]. split; [|split].
  - intros mid post Hsteps.
    replace (Interrupt :: mid ++ Wakeup :: post)
        with ((Interrupt :: mid ++ [Wakeup]) ++ post)
        by (cbn; by rewrite <- app_assoc).
    rewrite np_exec_app.
    destruct (np_countdown post _ (Hkill mid)) as [_ Hle].
    apply np_distance_0.
    pose proof (np_distance_le (exec (Interrupt :: mid ++ [Wakeup]) s)).
    lia.
  - intros sch Hp Hi.
    assert (Hr : at_ (run_step s) = Returned).
    { unfold run_step. rewrite Hp, Hi. done. }
    assert (Hl : leaving (ticked s) (run_step s)).
    { unfold leaving, run_step. rewrite Hp, Hi. cbn. auto. }
    split; [done|].
    assert (Hd : doomed (run_step s)).
    { split; [apply Hl|]. rewrite Hr. intros [?|?]; done. }
    destruct (np_countdown sch _ Hd) as [_ Hle].
    split; [|apply (np_leaving_exec _ sch _ Hl)].
    apply np_distance_0. unfold distance at 2 in Hle. rewrite Hr in Hle. lia.
  - intros sch post Hp Hw Hno.
    change (Interrupt :: sch) with ([Interrupt] ++ sch). rewrite np_exec_app.
    destruct (np_parked sch (exec [Interrupt] s)) as (H1 & H2 & _); try done.
    split; [done|]. split; [done|].
    intros Hsteps. by apply (Hwait sch post Hp).
Qed.

Lemma kill_releases_the_loop_witness :
  (ticked (exec (Interrupt :: [Step] ++ Wakeup :: [Step; Step]) started) = 0 ∧
   at_ (exec (Interrupt :: [Step] ++ Wakeup :: [Step; Step]) started) = Returned) ∧
  at_ (exec (Interrupt :: [Step; Step; Interrupt; Step]) started) = AtWait.
Proof.
  pose proof (kill_releases_the_loop started) as (_ & Hkill & _ & _ & Hbare).
  split.
  - destruct (Hkill [Step] [Step; Step] eq_refl) as [Ht Hr].
    split; [exact Ht | apply Hr; cbn; lia].
  - refine (proj1 (Hbare [Step; Step; Interrupt; Step] [] eq_refl eq_refl _)).
    rewrite !not_elem_of_cons. repeat split; try done. apply not_elem_of_nil.
Defined.

(** Events of other threads leave the loop where it stands and call
    nothing. *)
Lemma np_others (sch : list event) (s : state) :
  Step ∉ sch → at_ (exec sch s) = at_ s ∧ ticked (exec sch s) = ticked s.
Proof.
  revert s. induction sch as [|e sch IH]; intros s Hno; [done|].
  change (exec (e :: sch) s) with (exec sch (on_event e s)).
  apply not_elem_of_cons in Hno as [He Hno].
  destruct (IH (on_event e s)) as [-> ->]; [done|]. by destruct e.
Qed.

(** Steps of a loop that is parked with nothing pending change nothing. *)
Lemma np_idle_steps (n : nat) (s : state) :
  at_ s = AtWait → m_wake (m_notifiablelock s) = false →
  exec (replicate n Step) s = s.
Proof.
  intros Hp Hw. induction n as [|n IH]; [done|].
  change (exec (replicate (S n) Step) s)
    with (exec (replicate n Step) (run_step s)).
  replace (run_step s) with s; [done|].
  unfold run_step, wait_poll. by rewrite Hp, Hw.
Qed.

(** One wakeup() followed by at least three steps: one call of tick(). *)
Lemma np_round (n : nat) (s : state) :
  at_ s = AtWait → m_wake (m_notifiablelock s) = false →
  m_interrupted s = false → 3 ≤ n →
  exec (Wakeup :: replicate n Step) s
    = State false notifiable_new AtWait (S (ticked s)).
Proof.
  intros Hp Hw Hi Hn. destruct s as [i [w] p t]. cbn in Hp, Hw, Hi. subst.
  replace n with (3 + (n - 3)) by lia. rewrite replicate_add.
  change (Wakeup :: replicate 3 Step ++ replicate (n - 3) Step)
    with ((Wakeup :: replicate 3 Step) ++ replicate (n - 3) Step).
  rewrite np_exec_app. cbn -[replicate]. by apply np_idle_steps.
Qed.

Lemma np_rounds (ns : list nat) (s : state) :
  at_ s = AtWait → m_wake (m_notifiablelock s) = false →
  m_interrupted s = false → Forall (λ n, 3 ≤ n) ns →
  exec (concat ((λ n, Wakeup :: replicate n Step) <$> ns)) s
    = State false notifiable_new AtWait (ticked s + length ns).
Proof.
  revert s. induction ns as [|n ns IH]; intros s Hp Hw Hi Hns.
  - destruct s as [i [w] p t]. cbn in *. subst. f_equal. lia.
  - apply Forall_cons in Hns as [Hn Hns].
    cbn [fmap list_fmap concat]. rewrite np_exec_app, np_round by done.
    rewrite IH by done. cbn. f_equal. lia.
Qed.

(** C3. tick() is called by the step that leaves AtTick and by nothing else.
    Take an iteration of a loop standing in wait(): its attempt to consume,
    its check of the flag and the step after the check, with calls of other
    threads anywhere in between.  It calls tick() exactly when a wakeup was
    pending at the attempt and the flag was down at the check.  Hence K
    wakeup() calls on a fresh pulser, each followed by at least the three
    steps of an iteration, give exactly K calls of tick(). *)
Theorem tick_iff_wakeup_consumed_and_not_interrupted (s : state) :
  (∀ e, ticked (on_event e s) = S (ticked s) ↔ e = Step ∧ at_ s = AtTick) ∧
  (∀ e1 e2 e3, at_ s = AtWait → Step ∉ e1 → Step ∉ e2 → Step ∉ e3 →
     let s1 := exec e1 s in
     let s2 := exec e2 (run_step s1) in
     let s3 := exec e3 (run_step s2) in
     let s4 := run_step s3 in
     (ticked s4 = S (ticked s) ↔
        m_wake (m_notifiablelock s1) = true ∧ m_interrupted s2 = false) ∧
     (ticked s4 = ticked s ∨ ticked s4 = S (ticked s))) ∧
  (∀ ns : list nat, Forall (λ n, 3 ≤ n) ns →
     ticked (exec (concat ((λ n, Wakeup :: replicate n Step) <$> ns)) started)
       = length ns).
Proof.
  split; [|split].
  - intros e. destruct s as [i [w] p t].
    destruct e, p; cbn; unfold wait_poll; cbn; try destruct w; try destruct i;
      cbn; split; try lia; try (intros [? ?]; done); done.
  - intros e1 e2 e3 Hp H1 H2 H3 s1 s2 s3 s4.
    destruct (np_others e1 s H1) as [Hp1 Ht1]. fold s1 in Hp1, Ht1.
    destruct (np_others e2 (run_step s1) H2) as [Hp2 Ht2]. fold s2 in Hp2, Ht2.
    destruct (np_others e3 (run_step s2) H3) as [Hp3 Ht3]. fold s3 in Hp3, Ht3.
    rewrite Hp in Hp1.
    assert (Hs4 : ticked s4 = ticked s3 + (if at_ s3 is AtTick then 1 else 0)).
    { subst s4. unfold run_step. destruct (at_ s3); cbn; try lia.
      - destruct (wait_poll _); cbn; lia.
      - destruct (m_interrupted s3); cbn; lia. }
    destruct (m_wake (m_notifiablelock s1)) eqn:Hw.
    + assert (Hr1 : at_ (run_step s1) = AtCheck ∧ ticked (run_step s1) = ticked s1).
      { unfold run_step, wait_poll. rewrite Hp1, Hw. done. }
      destruct Hr1 as [Hq1 Hq1']. rewrite Hq1 in Hp2. rewrite Hq1', Ht1 in Ht2.
      unfold run_step in Hp3, Ht3. rewrite Hp2 in Hp3, Ht3.
      destruct (m_interrupted s2); cbn in Hp3, Ht3;
        rewrite Hp3, Ht3, Ht2 in Hs4.
      all: split; [split; [intros ?; first [lia|done] | intros [? ?]; first [done|lia]] | lia].
    + assert (Hr1 : at_ (run_step s1) = AtWait ∧ ticked (run_step s1) = ticked s1).
      { unfold run_step, wait_poll. rewrite Hp1, Hw. done. }
      destruct Hr1 as [Hq1 Hq1']. rewrite Hq1 in Hp2. rewrite Hq1', Ht1 in Ht2.
      unfold run_step in Hp3, Ht3. rewrite Hp2 in Hp3, Ht3.
      destruct (wait_poll (m_notifiablelock s2)); cbn in Hp3, Ht3;
        rewrite ?Hp2 in Hp3; rewrite Hp3, Ht3, Ht2 in Hs4.
      all: split; [split; [intros ?; first [lia|done] | intros [? ?]; first [done|lia]] | lia].
  - intros ns Hns. by rewrite np_rounds.
Qed.

Lemma tick_iff_wakeup_consumed_and_not_interrupted_witness :
  ticked (exec [Wakeup; Step; Step; Step; Wakeup; Step; Step; Step; Step] started) = 2 ∧
  (ticked (run_step (exec [] (run_step (exec [Interrupt] (run_step
             (exec [Wakeup] started)))))) = 1
   ↔ true = true ∧ true = false).
Proof.
  pose proof (tick_iff_wakeup_consumed_and_not_interrupted started)
    as (_ & Hiter & Hk).
  split.
  - apply (Hk [3; 4]). repeat constructor.
  - refine (proj1 (Hiter [Wakeup] [Interrupt] [] eq_refl _ _ _)).
    + rewrite not_elem_of_cons. split; [done|apply not_elem_of_nil].
    + rewrite not_elem_of_cons. split; [done|apply not_elem_of_nil].
    + apply not_elem_of_nil.
Defined.

End NotifiedPulserFacts.

(** ** ClockPulser *)
Section ClockPulserFacts.
Import Sync Sync.ClockPulser.

(** An invariant of every event is an invariant of every schedule. *)
Lemma cp_exec_ind (P : state → Prop) :
  (∀ e s, P s → P (on_event e s)) → ∀ sch s, P s → P (exec sch s).
Proof.
  intros Hstep sch. induction sch as [|e sch IH]; intros s Hs; [done|].
  apply IH. by apply Hstep.
Qed.







(** A run: the first tick at the end of the first interval, the second one
    late because the thread was slow to wake, then an interrupt in the third
    sleep. *)
Example cp_run :
  exec [Step; Elapse 5; Step; Step; Step; Step; Elapse 7; Step; Step; Step;
        Step; Interrupt; Elapse 5; Step; Step; Step] (started 5 0)
    = State true 5 Returned 17
        [sleep_for 12 5; tick 12; sleep_for 5 5; tick 5; sleep_for 0 5].
Proof. reflexivity. Qed.



End ClockPulserFacts.

(** ** DelayedNotifiedPulser *)
Section DelayedNotifiedPulserFacts.
Import Sync Sync.DelayedNotifiedPulser.

Lemma dp_exec_app (a b : list event) (s : state) :
  exec (a ++ b) s = exec b (exec a s).
Proof. unfold exec. by rewrite foldl_app. Qed.

Lemma dp_exec_ind (P : state → Prop) :
  (∀ e s, P s → P (on_event e s)) → ∀ sch s, P s → P (exec sch s).
Proof.
  intros Hstep sch. induction sch as [|e sch IH]; intros s Hs; [done|].
  apply IH. by apply Hstep.
Qed.

Lemma dp_now_event (e : event) (s : state) : now s ≤ now (on_event e s).
Proof.
  destruct s as [i [w] dly p n log].
  destruct e, p; cbn; unfold wait_poll; cbn; try destruct w; try destruct i;
    try case_decide; cbn; lia.
Qed.

Lemma dp_now_mono (sch : list event) (s : state) : now s ≤ now (exec sch s).
Proof.
  revert s. induction sch as [|e sch IH]; intros s; [done|].
  etrans; [apply (dp_now_event e)|apply IH].
Qed.

Lemma dp_inv_event (delay : nat) (e : event) (s : state) :
  inv delay s → inv delay (on_event e s).
Proof.
  intros (Hd & Hlog & Hsp & Hpc). destruct s as [i [w] dly p n log].
  cbn in Hd, Hlog, Hsp, Hpc. subst dly. unfold inv.
  destruct e as [| | |d]; cbn.
  - destruct p as [| | | | dl |]; cbn.
    + unfold wait_poll; cbn. destruct w; cbn; done.
    + destruct i; cbn; done.
    + destruct Hpc as [->|(t' & rest & -> & Hle)]; cbn.
      * refine (conj _ (conj _ (conj _ _))); try done. exists n, []. done.
      * cbn in Hlog. destruct rest as [|[t1 d1|t1] rest]; try (by destruct Hlog as [[] _]).
        destruct Hlog as [[_ Ht1] Hrest]. cbn in Hsp.
        refine (conj _ (conj _ (conj _ _))); try done.
        -- split; [lia|exact Hsp].
        -- exists n, (sleep_for t' delay :: tick t1 :: rest). done.
    + destruct Hpc as (t & rest & -> & Hle). cbn in *.
      refine (conj _ (conj _ (conj _ _))); try done.
      exists n, (tick t :: rest). done.
    + destruct Hpc as (t' & rest & -> & ->).
      case_decide; cbn; refine (conj _ (conj _ (conj _ _))); try done.
      * right. exists t', rest. done.
      * exists t', rest. done.
    + done.
  - done.
  - done.
  - refine (conj _ (conj _ (conj _ _))); try done.
    destruct p; try done;
      try (destruct Hpc as [->|(t' & rest & -> & Hle)];
           [by left|right; exists t', rest; split; [done|lia]]).
    destruct Hpc as (t & rest & -> & Hle). exists t, rest. split; [done|lia].
Qed.

Lemma dp_inv_started (delay t0 : nat) : inv delay (started delay t0).
Proof. unfold inv. cbn. repeat split; try done. by left. Qed.

(** Before its deadline a sleeping loop stays where it is. *)
Lemma dp_asleep (deadline : nat) (sch : list event) (s : state) :
  at_ s = Delaying deadline → now (exec sch s) < deadline →
  at_ (exec sch s) = Delaying deadline ∧ calls (exec sch s) = calls s.
Proof.
  revert s. induction sch as [|e sch IH]; intros s Hp Hlt; [done|].
  change (exec (e :: sch) s) with (exec sch (on_event e s)) in *.
  pose proof (dp_now_mono sch (on_event e s)) as Hm.
  pose proof (dp_now_event e s) as Hm'.
  assert (Hs1 : at_ (on_event e s) = Delaying deadline ∧
                calls (on_event e s) = calls s).
  { destruct e; cbn; try done. unfold run_step. rewrite Hp.
    rewrite decide_False by lia. done. }
  destruct Hs1 as [Hp1 Hc1]. destruct (IH _ Hp1 Hlt) as [-> ->]. done.
Qed.

Lemma dp_credit_event (e : event) (s : state) :
  e ≠ Wakeup → credit (on_event e s) ≤ credit s.
Proof.
  intros He. destruct s as [i [w] dly p n log]. unfold credit.
  destruct e, p; try done; cbn; unfold wait_poll, ticks; cbn;
    try destruct w; try destruct i; try case_decide; cbn; lia.
Qed.

Lemma dp_credit_exec (sch : list event) (s : state) :
  Wakeup ∉ sch → credit (exec sch s) ≤ credit s.
Proof.
  revert s. induction sch as [|e sch IH]; intros s Hno; [done|].
  change (exec (e :: sch) s) with (exec sch (on_event e s)).
  apply not_elem_of_cons in Hno as [He Hno].
  etrans; [by apply IH|]. apply dp_credit_event. congruence.
Qed.

(** Three wakeups during the sleep after a tick give one more tick, and
    the loop then parks again. *)
Example dp_burst :
  let s := exec [Wakeup; Step; Step; Step; Step] (started 10 0) in
  at_ s = Delaying 10 ∧
  tick_times (calls (exec [Wakeup; Elapse 3; Wakeup; Wakeup; Elapse 8; Step; Step;
                           Step; Step; Step; Elapse 20; Step; Step; Step] s))
    = [11; 0].
Proof. split; reflexivity. Qed.

(** What a window leaves behind: while the sleep lasts, the loop stays in
    it and calls nothing, a wakeup() made meanwhile stays pending, and the
    flag is raised by interrupt() only. *)
Lemma dp_window (deadline : nat) (burst : list event) (s : state) :
  at_ s = Delaying deadline → now (exec burst s) < deadline →
  at_ (exec burst s) = Delaying deadline ∧
  calls (exec burst s) = calls s ∧
  m_delay (exec burst s) = m_delay s ∧
  (Interrupt ∉ burst → m_interrupted (exec burst s) = m_interrupted s) ∧
  (m_wake (m_notifiablelock s) = true ∨ Wakeup ∈ burst →
   m_wake (m_notifiablelock (exec burst s)) = true) ∧
  (Wakeup ∉ burst → m_notifiablelock (exec burst s) = m_notifiablelock s).
Proof.
  revert s. induction burst as [|e burst IH]; intros s Hp Hlt.
  - refine (conj _ (conj _ (conj _ (conj _ (conj _ _))))); try done.
    by intros [?|?%elem_of_nil].
  - change (exec (e :: burst) s) with (exec burst (on_event e s)) in *.
    pose proof (dp_now_mono burst (on_event e s)) as Hm.
    pose proof (dp_now_event e s) as Hm'.
    assert (Hs1 : at_ (on_event e s) = Delaying deadline ∧
                  calls (on_event e s) = calls s ∧
                  m_delay (on_event e s) = m_delay s ∧
                  (e ≠ Interrupt → m_interrupted (on_event e s) = m_interrupted s) ∧
                  (e = Wakeup → m_wake (m_notifiablelock (on_event e s)) = true) ∧
                  (e ≠ Wakeup → m_notifiablelock (on_event e s) = m_notifiablelock s)).
    { destruct e; cbn; try done. unfold run_step. rewrite Hp.
      rewrite decide_False by lia. done. }
    destruct Hs1 as (Hp1 & Hc1 & Hd1 & Hi1 & Hw1 & Hn1).
    destruct (IH _ Hp1 Hlt) as (-> & -> & -> & Hi & Hw & Hn).
    refine (conj _ (conj _ (conj _ (conj _ (conj _ _))))); try done.
    + intros Hno. apply not_elem_of_cons in Hno as [He Hno].
      rewrite Hi by done. apply Hi1. congruence.
    + intros Hin. apply Hw.
      destruct e; try (by left; apply Hw1);
        (destruct Hin as [Hin|Hin];
         [left; by rewrite Hn1|apply elem_of_cons in Hin as [?|?]; [done|by right]]).
    + intros Hno. apply not_elem_of_cons in Hno as [He Hno].
      rewrite Hn by done. apply Hn1. congruence.
Qed.

(** One round of a pulser that is woken while it waits. *)
Lemma dp_round (s : state) :
  at_ s = AtWait → m_interrupted s = false →
  exec [Wakeup; Step; Step; Step; Step; Elapse (m_delay s); Step] s
  = State false notifiable_new (m_delay s) AtWait (now s + m_delay s)
          (sleep_for (now s) (m_delay s) :: tick (now s) :: calls s).
Proof.
  intros Hp Hi. destruct s as [i w dly p n log]. cbn in Hp, Hi. subst.
  cbn. by rewrite decide_True by lia.
Qed.

Lemma dp_rounds (K : nat) (s : state) :
  at_ s = AtWait → m_interrupted s = false →
  let s' := exec (concat (replicate K
                   [Wakeup; Step; Step; Step; Step; Elapse (m_delay s); Step])) s
  in
  at_ s' = AtWait ∧ m_interrupted s' = false ∧ m_delay s' = m_delay s ∧
  now s' = now s + K * m_delay s ∧
  tick_times (calls s')
  = ((λ k, now s + k * m_delay s) <$> reverse (seq 0 K)) ++ tick_times (calls s) ∧
  sleeps (calls s') = K + sleeps (calls s).
Proof.
  intros Hp Hi. induction K as [|K IH].
  - cbn. repeat split; try done.
  - cbn zeta in IH |- *. rewrite replicate_S_end, concat_app, dp_exec_app.
    destruct IH as (Hp' & Hi' & Hd' & Hn' & Ht' & Hs').
    cbn [concat]. rewrite app_nil_r.
    set (s1 := exec (concat (replicate K _)) s) in *. clearbody s1.
    rewrite <- Hd'. rewrite (dp_round s1 Hp' Hi').
    rewrite seq_S, reverse_snoc, fmap_cons. cbn.
    rewrite Hd', Hn', Ht', Hs'. repeat split; try done; lia.
Qed.

(** C5. In every execution of a started DelayedNotifiedPulser each tick() is
    followed by a sleep_for(delay) before anything else is called, the next
    tick() comes only after that sleep has lasted its full length, and so
    the times of consecutive tick() calls lie at least the delay apart.  And
    whatever happens while the loop is in that sleep (any number of wakeup()
    calls among it), if no wakeup() comes after the window then at most one
    further tick() is ever called.

    The loop does all of this: the two steps from its call of tick() call
    tick() and then sleep_for(m_delay); until the deadline of that sleep the
    loop stays in it and calls nothing, whatever else happens; once the
    deadline has passed the next step re-arms wait(), which returns on a
    wakeup() made during the sleep, however many there were, and one tick()
    and one sleep_for(m_delay) follow, or which blocks if there was none.
    Woken K times, each time after the sleep before has ended, the pulser
    ticks K times, at times exactly the delay apart. *)
Theorem delayed_pulser_coalesces_and_spaces (delay t0 : nat) :
  (∀ sch, let s' := exec sch (started delay t0) in
     delayed delay (calls s') ∧ spaced delay (tick_times (calls s'))) ∧
  (∀ s deadline burst rest,
     at_ s = Delaying deadline → now (exec burst s) < deadline →
     Wakeup ∉ rest →
     ticks (calls (exec (burst ++ rest) s)) ≤ ticks (calls s) + 1) ∧
  (∀ s, at_ s = AtTick →
     at_ (exec [Step] s) = AtDelay ∧
     calls (exec [Step] s) = tick (now s) :: calls s ∧
     at_ (exec [Step; Step] s) = Delaying (now s + m_delay s) ∧
     calls (exec [Step; Step] s)
     = sleep_for (now s) (m_delay s) :: tick (now s) :: calls s) ∧
  (∀ s deadline burst,
     at_ s = Delaying deadline → now (exec burst s) < deadline →
     at_ (exec burst s) = Delaying deadline ∧ calls (exec burst s) = calls s) ∧
  (∀ s deadline burst d,
     at_ s = Delaying deadline → m_interrupted s = false →
     Interrupt ∉ burst → Wakeup ∈ burst →
     now (exec burst s) < deadline → deadline ≤ now (exec burst s) + d →
     let t := now (exec burst s) + d in
     let s1 := exec (burst ++ [Elapse d; Step]) s in
     let s5 := exec (burst ++ [Elapse d; Step; Step; Step; Step; Step]) s in
     at_ s1 = AtWait ∧ calls s1 = calls s ∧
     at_ s5 = Delaying (t + m_delay s) ∧
     calls s5 = sleep_for t (m_delay s) :: tick t :: calls s ∧
     m_wake (m_notifiablelock s5) = false) ∧
  (∀ s deadline burst d n,
     at_ s = Delaying deadline → m_wake (m_notifiablelock s) = false →
     Wakeup ∉ burst →
     now (exec burst s) < deadline → deadline ≤ now (exec burst s) + d →
     let s' := exec (burst ++ Elapse d :: replicate (S n) Step) s in
     at_ s' = AtWait ∧ calls s' = calls s) ∧
  (∀ K, let s' := exec (concat (replicate K
                   [Wakeup; Step; Step; Step; Step; Elapse delay; Step]))
                   (started delay t0) in
     at_ s' = AtWait ∧ now s' = t0 + K * delay ∧
     tick_times (calls s') = (λ k, t0 + k * delay) <$> reverse (seq 0 K) ∧
     ticks (calls s') = K ∧ sleeps (calls s') = K).
Proof.
  refine (conj _ (conj _ (conj _ (conj _ (conj _ (conj _ _)))))).
  - intros sch s'.
    assert (Hinv : inv delay s').
    { apply dp_exec_ind; [apply dp_inv_event|apply dp_inv_started]. }
    destruct Hinv as (_ & Hl & Hs & _). done.
  - intros s deadline burst rest Hp Hlt Hno.
    destruct (dp_asleep deadline burst s Hp Hlt) as [Hp1 Hc1].
    rewrite dp_exec_app.
    pose proof (dp_credit_exec rest (exec burst s) Hno) as Hcr.
    unfold credit in Hcr. rewrite Hp1, Hc1 in Hcr.
    destruct (m_wake (m_notifiablelock (exec burst s))); lia.
  - intros s Hp. destruct s as [i w dly p n log]. cbn in Hp. subst p. done.
  - intros s deadline burst Hp Hlt. by apply dp_asleep.
  - intros s deadline burst d Hp Hi Hno Hin Hlt Hle. cbn zeta.
    destruct (dp_window deadline burst s Hp Hlt)
      as (Hp1 & Hc1 & Hd1 & Hi1 & Hw1 & _).
    specialize (Hi1 Hno). specialize (Hw1 (or_intror Hin)). rewrite Hi in Hi1.
    rewrite !dp_exec_app. rewrite <- Hc1, <- Hd1.
    destruct (exec burst s) as [i [w] dly p n log].
    cbn in Hp1, Hi1, Hw1, Hd1, Hc1, Hlt, Hle |- *. subst i w p.
    assert (H1 : run_step (elapse d (State false (Notifiable true) dly
                                           (Delaying deadline) n log))
                 = State false (Notifiable true) dly AtWait (n + d) log).
    { unfold run_step, elapse. cbn. by rewrite decide_True by lia. }
    rewrite H1. done.
  - intros s deadline burst d n Hp Hw Hno Hlt Hle. cbn zeta.
    destruct (dp_window deadline burst s Hp Hlt)
      as (Hp1 & Hc1 & _ & _ & _ & Hn1).
    specialize (Hn1 Hno). rewrite dp_exec_app, <- Hc1.
    rewrite <- Hn1 in Hw. clear Hn1.
    destruct (exec burst s) as [i [w] dly p n' log].
    cbn in Hp1, Hw, Hlt, Hle |- *. subst w p.
    change (exec (Elapse d :: replicate (S n) Step)
                 (State i (Notifiable false) dly (Delaying deadline) n' log))
      with (exec (replicate n Step)
                 (run_step (State i (Notifiable false) dly (Delaying deadline)
                                  (n' + d) log))).
    unfold run_step. cbn. rewrite decide_True by lia. cbn.
    induction n as [|n IH]; [done|]. exact IH.
  - intros K.
    destruct (dp_rounds K (started delay t0) eq_refl eq_refl)
      as (Hp & _ & _ & Hn & Ht & Hs).
    cbn in Hp, Hn, Ht, Hs. rewrite app_nil_r in Ht.
    refine (conj Hp (conj Hn (conj Ht (conj _ _)))).
    + unfold ticks. rewrite Ht. rewrite length_fmap, length_reverse, length_seq.
      done.
    + lia.
Qed.

Lemma delayed_pulser_coalesces_and_spaces_witness :
  let s := exec [Wakeup; Step; Step; Step; Elapse 1; Step] (started 10 0) in
  at_ s = Delaying 11 ∧
  ticks (calls (exec ([Wakeup; Elapse 3; Wakeup; Step; Wakeup; Elapse 4] ++
                      [Elapse 5; Step; Step; Step; Step; Step; Elapse 20; Step; Step])
                     s)) ≤ ticks (calls s) + 1 ∧
  calls (exec ([Wakeup; Elapse 3; Wakeup; Step; Wakeup; Elapse 4] ++
               [Elapse 5; Step; Step; Step; Step; Step]) s)
  = sleep_for 13 10 :: tick 13 :: calls s.
Proof.
  intros s. split; [reflexivity|].
  pose proof (delayed_pulser_coalesces_and_spaces 10 0)
    as (_ & Hone & _ & _ & Hdoes & _).
  split.
  - apply (Hone s 11); [reflexivity| |].
    + vm_compute. lia.
    + intros Hin.
      repeat (apply elem_of_cons in Hin as [Hin|Hin]; [discriminate Hin|]).
      by apply elem_of_nil in Hin.
  - apply (Hdoes s 11 [Wakeup; Elapse 3; Wakeup; Step; Wakeup; Elapse 4] 5);
      [reflexivity|reflexivity| |left|vm_compute; lia|vm_compute; lia].
    intros Hin.
    repeat (apply elem_of_cons in Hin as [Hin|Hin]; [discriminate Hin|]).
    by apply elem_of_nil in Hin.
Defined.

End DelayedNotifiedPulserFacts.

(** ** SelfDeletingTimer *)
Section SelfDeletingTimerFacts.
Import Sync Sync.SelfDeletingTimer.

Lemma tm_exec_ind (P : state → Prop) :
  (∀ e s s', P s → reached (on_event e s) = Some s' → P s') →
  ∀ sch s s', P s → reached (exec sch s) = Some s' → P s'.
Proof.
  intros Hstep sch. induction sch as [|e sch IH]; intros s s' Hs Hex.
  - by injection Hex as <-.
  - cbn in Hex. destruct (on_event e s) as [s1|s1|] eqn:He.
    + eapply IH; [|done]. eapply Hstep; [done|]. by rewrite He.
    + injection Hex as <-. eapply Hstep; [done|]. by rewrite He.
    + done.
Qed.

Lemma tm_exec_app (a b : list event) (s s1 : state) :
  exec a s = Going s1 → exec (a ++ b) s = exec b s1.
Proof.
  revert s. induction a as [|e a IH]; intros s Ha.
  - by injection Ha as <-.
  - cbn in Ha |- *. destruct (on_event e s); try done. by apply IH.
Qed.

(** The invariant depends on the handle and on the flag only in that a
    handle that is not joinable and a flag that is up stay so. *)
Lemma tm_inv_frame (interval t0 : nat) (s s' : state) :
  m_interval s' = m_interval s → now s' = now s → at_ s' = at_ s →
  calls s' = calls s → deleted s' = deleted s →
  (m_interrupted s = true → m_interrupted s' = true) →
  (active (handle s) = false → active (handle s') = false) →
  inv interval t0 s → inv interval t0 s'.
Proof.
  intros Hiv Hn Hp Hc Hd Hi Hh. unfold inv. rewrite Hiv, Hn, Hp, Hc, Hd.
  intros (? & ? & Hdel & Hpc). split; [done|]. split; [done|].
  split; [by auto|].
  destruct (at_ s); try done;
    destruct Hpc as (t' & ? & ? & [[? ?]|?] & ?); exists t';
    repeat split; try done; auto.
Qed.

Lemma tm_inv_event (interval t0 : nat) (e : event) (s s' : state) :
  inv interval t0 s → reached (on_event e s) = Some s' → inv interval t0 s'.
Proof.
  intros Hinv He. destruct e as [| | | |d]; cbn in He.
  - unfold spawn in He. destruct (deleted s); [done|].
    destruct (Sync.start (handle s)); cbn in He; try (by injection He as <-).
    destruct (at_ s) eqn:Hat; try done.
    destruct Hinv as (_ & _ & _ & Hpc). by rewrite Hat in Hpc.
  - unfold release in He. destruct (deleted s) eqn:Hd; [done|].
    destruct (detach (handle s)) as [w'| | |] eqn:Hdet; cbn in He;
      injection He as <-; try done.
    eapply tm_inv_frame; [..|exact Hinv]; try done. intros _. cbn.
    unfold detach in Hdet. destruct (m_thread (handle s)); [|done].
    by injection Hdet as <-.
  - destruct Hinv as (Hi & Ht & Hdel & Hpc). destruct s as [w i iv p n log del].
    cbn in Hi, Ht, Hdel, Hpc. subst iv. unfold run_step in He. cbn in He.
    destruct p as [| | dl | | | |]; cbn in He; try done.
    + injection He as <-. destruct Hpc as [-> ->]. unfold inv. cbn.
      repeat split; try done. exists n. done.
    + injection He as <-. destruct Hpc as (t' & -> & -> & Ht' & ->).
      unfold inv. case_decide; cbn; repeat split; try done; exists t';
        repeat split; try done; lia.
    + injection He as <-. destruct Hpc as (t' & -> & Ht' & Hle & ->).
      unfold inv. destruct i; cbn; repeat split; try done; exists t';
        repeat split; try done. left. done.
    + injection He as <-. destruct Hpc as (t' & -> & Ht' & Hle & ->).
      unfold inv. cbn. repeat split; try done. exists t'.
      repeat split; try done. right. exists n. done.
    + destruct Hpc as (t' & Ht' & Hle & Hc & ->).
      destruct w as [[st|]]; cbn in He; injection He as <-; unfold inv; cbn;
        repeat split; try done; exists t'; done.
    + injection He as <-. unfold inv. cbn. done.
  - unfold interrupt in He. destruct (deleted s) eqn:Hd; [done|].
    injection He as <-. by eapply tm_inv_frame; [..|exact Hinv].
  - injection He as <-. destruct Hinv as (Hi & Ht & Hdel & Hpc).
    destruct s as [w i iv p n log del]. cbn in Hi, Ht, Hdel, Hpc. subst iv.
    unfold inv. cbn. split; [done|]. split; [lia|]. split; [done|].
    destruct p; cbn in *; try done.
    + destruct Hpc as (t' & -> & -> & Ht' & ->). exists t'. repeat split; try done; lia.
    + destruct Hpc as (t' & -> & Ht' & Hle & ->). exists t'. repeat split; try done; lia.
    + destruct Hpc as (t' & -> & Ht' & Hle & ->). exists t'. repeat split; try done; lia.
    + destruct Hpc as (t' & Ht' & Hle & Hc & Hd). exists t'. repeat split; try done; lia.
    + destruct Hpc as (t' & Ht' & Hle & Hc & Hd). exists t'. repeat split; try done; lia.
Qed.

(** start() on a timer fresh from the factory, interrupted or not: its
    first statement creates the thread. *)
Lemma tm_spawn_created (interval t0 : nat) (i : bool) :
  ∃ s1, on_event Spawn (State thread_new i interval NotStarted t0 [] false)
          = Going s1 ∧
        inv interval t0 s1 ∧ m_interrupted s1 = i ∧
        at_ s1 = AtSleep ∧ active (handle s1) = true.
Proof. eexists. split; [reflexivity|]. unfold inv. cbn. done. Qed.

Lemma tm_reachable (interval t0 : nat) (sch : list event) (s' : state) :
  reached (exec (Spawn :: sch) (created interval t0)) = Some s' →
  inv interval t0 s'.
Proof.
  destruct (tm_spawn_created interval t0 false) as (s1 & Hs1 & Hinv & _).
  cbn [exec]. unfold created. rewrite Hs1.
  by apply tm_exec_ind; [apply tm_inv_event|].
Qed.

Lemma tm_cancelled_event (e : event) (s s' : state) :
  cancelled s → reached (on_event e s) = Some s' → cancelled s'.
Proof.
  intros (Hi & Ht & Hp) He. destruct s as [w i iv p n log del].
  cbn in Hi, Ht, Hp. subst i. unfold cancelled.
  destruct e as [| | | |d]; cbn in He.
  - unfold spawn in He. cbn in He. destruct del; [done|].
    destruct (Sync.start w); cbn in He; try (by injection He as <-).
    destruct p; try done. by injection He as <-.
  - unfold release in He. cbn in He. destruct del; [done|].
    destruct (detach w); cbn in He; by injection He as <-.
  - unfold run_step in He. cbn in He.
    destruct p; cbn in He; try case_decide; try destruct (destroy w);
      cbn in He; try done; by injection He as <-.
  - unfold interrupt in He. cbn in He. destruct del; [done|].
    by injection He as <-.
  - by injection He as <-.
Qed.

Lemma tm_uninterrupted_event (e : event) (s s' : state) :
  e ≠ Interrupt → m_interrupted s = false →
  reached (on_event e s) = Some s' → m_interrupted s' = false.
Proof.
  intros Hne Hi He. destruct s as [w i iv p n log del]. cbn in Hi. subst i.
  destruct e as [| | | |d]; cbn in He; try done.
  - unfold spawn in He. cbn in He. destruct del; [done|].
    destruct (Sync.start w); cbn in He; try (by injection He as <-).
    destruct p; try done. by injection He as <-.
  - unfold release in He. cbn in He. destruct del; [done|].
    destruct (detach w); cbn in He; by injection He as <-.
  - unfold run_step in He. cbn in He.
    destruct p; cbn in He; try case_decide; try destruct (destroy w);
      cbn in He; try done; by injection He as <-.
  - by injection He as <-.
Qed.

Lemma tm_uninterrupted (sch : list event) (s s' : state) :
  Interrupt ∉ sch → m_interrupted s = false →
  reached (exec sch s) = Some s' → m_interrupted s' = false.
Proof.
  revert s. induction sch as [|e sch IH]; intros s Hno Hi Hex.
  - by injection Hex as <-.
  - apply not_elem_of_cons in Hno as [He Hno]. cbn in Hex.
    destruct (on_event e s) as [s1|s1|] eqn:Hev; [| |done].
    + eapply IH; [done| |done].
      eapply tm_uninterrupted_event; [|done|by rewrite Hev]. congruence.
    + injection Hex as <-.
      eapply tm_uninterrupted_event; [|done|by rewrite Hev]. congruence.
Qed.

(** From wherever the thread of a timer stands, one interval and five
    steps take its run() to delete this: with the handle detached the object
    is deleted, with the handle still joinable the process is terminated. *)
Lemma tm_finishes (interval t0 : nat) (s : state) :
  inv interval t0 s →
  match exec [Step; Elapse interval; Step; Step; Step; Step] s with
  | Going s2 =>
      active (handle s) = false ∧ at_ s2 = Returned ∧ deleted s2 = true
  | Terminated s2 =>
      active (handle s) = true ∧ at_ s2 = AtDelete ∧ deleted s2 = false
  | Undefined => False
  end.
Proof.
  intros (Hi & Ht & Hdel & Hpc). destruct s as [[w] i iv p n log del].
  cbn in Hi, Ht, Hdel, Hpc. subst iv.
  destruct p as [| | dl | | | |]; cbn; try done.
  - destruct Hpc as [_ ->]. rewrite decide_True by done. cbn.
    destruct i, w; cbn; done.
  - destruct Hpc as (t' & -> & -> & Ht' & ->).
    case_decide; cbn.
    + destruct i, w; cbn; done.
    + rewrite decide_True by lia. cbn. destruct i, w; cbn; done.
  - destruct Hpc as (t' & _ & _ & _ & ->). destruct i, w; cbn; done.
  - destruct Hpc as (t' & _ & _ & _ & ->). destruct w; cbn; done.
  - destruct Hpc as (t' & Ht' & Hle & Hc & ->). destruct w; cbn; done.
  - destruct Hpc as (t' & Ht' & Hle & Hc & ->). split; [by apply Hdel|done].
Qed.

(** start(), then run() to its end with the handle detached in time. *)
Example tm_fires :
  exec [Spawn; Detach; Step; Elapse 7; Step; Step; Step; Step] (created 5 0)
  = Going (State (Thread None) false 5 Returned 7
                 [tick 7; sleep_for 0 5] true).
Proof. reflexivity. Qed.

(** The same with detach() coming after run() has reached delete this: the
    handle is joinable when ~PolymorphicThread destroys it. *)
Example tm_deleted_before_detach :
  start [Step; Elapse 7; Step; Step; Step; Step] (created 5 0)
  = Terminated (State (Thread (Some Running)) false 5 AtDelete 7
                      [tick 7; sleep_for 0 5] false).
Proof. reflexivity. Qed.

(** With no interval to sleep through, no time need pass for that. *)
Example tm_deleted_before_detach_0 :
  start [Step; Step; Step; Step; Step] (created 0 0)
  = Terminated (State (Thread (Some Running)) false 0 AtDelete 0
                      [tick 0; sleep_for 0 0] false).
Proof. reflexivity. Qed.

(** interrupt() through a pointer kept after the timer has deleted itself. *)
Example tm_use_after_delete :
  exec [Spawn; Detach; Step; Elapse 5; Step; Step; Step; Step; Interrupt]
       (created 5 0) = Undefined.
Proof. reflexivity. Qed.

(** A second start() on a timer whose first thread is still running. *)
Example tm_started_twice :
  exec [Spawn; Detach; Step; Spawn] (created 5 0) = Undefined.
Proof. reflexivity. Qed.

(** C6. In every execution of a timer created at time t0 and started, as far
    as it is defined, the callback is called at most once and not before
    t0 + interval, and the object is deleted exactly when run() has returned.
    If interrupt() is called while less than the interval has passed, or
    before start(), the callback is never called.  If interrupt() is never
    called, a run() that has come to delete this has called the callback
    exactly once.  From wherever run() stands, one interval and five steps
    bring it to delete this: with the handle detached by then the object
    deletes itself, with the handle still joinable the deletion ends in
    std::terminate and the object is not deleted.  The two calls of start()
    with run() between them are such an execution; with run() after them the
    timer fires and deletes itself. *)
Theorem timer_fires_once_unless_interrupted (interval t0 : nat) :
  (∀ sch s', reached (exec (Spawn :: sch) (created interval t0)) = Some s' →
     ticks (calls s') ≤ 1 ∧
     Forall (λ t, t0 + interval ≤ t) (tick_times (calls s')) ∧
     (deleted s' = true ↔ at_ s' = Returned)) ∧
  (∀ pre post s1 s', exec (Spawn :: pre) (created interval t0) = Going s1 →
     now s1 < t0 + interval →
     reached (exec (Interrupt :: post) s1) = Some s' →
     ticks (calls s') = 0) ∧
  (∀ sch s',
     reached (exec (Interrupt :: Spawn :: sch) (created interval t0)) = Some s' →
     ticks (calls s') = 0) ∧
  (∀ sch s', Interrupt ∉ sch →
     reached (exec (Spawn :: sch) (created interval t0)) = Some s' →
     at_ s' = AtDelete ∨ at_ s' = Returned →
     ∃ t, tick_times (calls s') = [t] ∧ t0 + interval ≤ t) ∧
  (∀ sch s1, exec (Spawn :: sch) (created interval t0) = Going s1 →
     match exec [Step; Elapse interval; Step; Step; Step; Step] s1 with
     | Going s2 =>
         active (handle s1) = false ∧ at_ s2 = Returned ∧ deleted s2 = true
     | Terminated s2 =>
         active (handle s1) = true ∧ at_ s2 = AtDelete ∧ deleted s2 = false
     | Undefined => False
     end) ∧
  exec [Spawn; Detach; Step; Elapse interval; Step; Step; Step; Step]
       (created interval t0)
  = Going (State (Thread None) false interval Returned (t0 + interval)
                 [tick (t0 + interval); sleep_for t0 interval] true) ∧
  start [Step; Elapse interval; Step; Step; Step; Step] (created interval t0)
  = Terminated (State (Thread (Some Running)) false interval AtDelete
                      (t0 + interval)
                      [tick (t0 + interval); sleep_for t0 interval] false).
Proof.
  refine (conj _ (conj _ (conj _ (conj _ (conj _ (conj _ _)))))).
  - intros sch s' Hex. apply tm_reachable in Hex as (_ & _ & _ & Hpc).
    destruct (at_ s') eqn:Hat; [done|..].
    + destruct Hpc as [-> ->]. cbn. split; [lia|]. split; [constructor|done].
    + destruct Hpc as (t' & -> & _ & _ & ->). cbn.
      split; [lia|]. split; [constructor|done].
    + destruct Hpc as (t' & -> & _ & _ & ->). cbn.
      split; [lia|]. split; [constructor|done].
    + destruct Hpc as (t' & -> & _ & _ & ->). cbn.
      split; [lia|]. split; [constructor|done].
    + destruct Hpc as (t' & ? & ? & [[_ ->]|(t & -> & ?)] & ->); cbn;
        (split; [lia|]); (split; [repeat constructor; lia|done]).
    + destruct Hpc as (t' & ? & ? & [[_ ->]|(t & -> & ?)] & ->); cbn;
        (split; [lia|]); (split; [repeat constructor; lia|done]).
  - intros pre post s1 s' Hpre Hlt Hpost.
    assert (Hinv : inv interval t0 s1) by (apply (tm_reachable _ _ pre); by rewrite Hpre).
    cbn [exec on_event] in Hpost.
    destruct (interrupt s1) as [s2|s2|] eqn:Hint.
    + assert (Hc : cancelled s2).
      { unfold interrupt in Hint. destruct (deleted s1); [done|].
        injection Hint as <-. unfold cancelled. cbn.
        destruct Hinv as (_ & _ & _ & Hpc). destruct (at_ s1); [done|..].
        - destruct Hpc as [-> _]. done.
        - destruct Hpc as (t' & -> & _). done.
        - destruct Hpc as (t' & _ & ? & ? & _). lia.
        - destruct Hpc as (t' & _ & ? & ? & _). lia.
        - destruct Hpc as (t' & ? & ? & _). lia.
        - destruct Hpc as (t' & ? & ? & _). lia. }
      apply (tm_exec_ind cancelled tm_cancelled_event _ _ _ Hc Hpost).
    + unfold interrupt in Hint. by destruct (deleted s1).
    + done.
  - intros sch s' Hex.
    change (exec (Interrupt :: Spawn :: sch) (created interval t0))
      with (exec sch (State (Thread (Some Running)) true interval AtSleep t0 []
                            false)) in Hex.
    by apply (tm_exec_ind cancelled tm_cancelled_event _ _ _) in Hex as (_ & ? & _).
  - intros sch s' Hno Hex Hat.
    pose proof (tm_reachable _ _ _ _ Hex) as (_ & _ & _ & Hpc).
    change (exec (Spawn :: sch) (created interval t0))
      with (exec sch (State (Thread (Some Running)) false interval AtSleep t0 []
                            false)) in Hex.
    apply tm_uninterrupted in Hex; [|done|done].
    destruct Hat as [Hat|Hat]; rewrite Hat in Hpc;
      destruct Hpc as (t' & ? & ? & [[Hi _]|(t & -> & ?)] & _);
      try congruence; exists t; (split; [done|lia]).
  - intros sch s1 Hex. apply (tm_finishes interval t0).
    apply (tm_reachable _ _ sch). by rewrite Hex.
  - cbn. rewrite decide_True by lia. cbn.
    by replace (t0 + interval + 0) with (t0 + interval) by lia.
  - unfold start. cbn. rewrite decide_True by lia. cbn.
    by replace (t0 + interval + 0) with (t0 + interval) by lia.
Qed.

Lemma timer_fires_once_unless_interrupted_witness :
  exec [Spawn; Detach; Step; Elapse 10] (created 100 0)
  = Going (State (Thread None) false 100 (Sleeping 100) 10 [sleep_for 0 100]
                 false) ∧
  exec (Interrupt :: [Elapse 110; Step; Step; Step])
       (State (Thread None) false 100 (Sleeping 100) 10 [sleep_for 0 100] false)
  = Going (State (Thread None) true 100 Returned 120 [sleep_for 0 100] true) ∧
  ticks (calls (State (Thread None) true 100 Returned 120 [sleep_for 0 100]
                      true)) = 0.
Proof.
  split; [reflexivity|]. split; [reflexivity|].
  apply (proj1 (proj2 (timer_fires_once_unless_interrupted 100 0))
           [Detach; Step; Elapse 10] [Elapse 110; Step; Step; Step]
           (State (Thread None) false 100 (Sleeping 100) 10 [sleep_for 0 100]
                  false)).
  - reflexivity.
  - cbn. lia.
  - reflexivity.
Defined.

End SelfDeletingTimerFacts.

(** ** PulserBase: the cancellation flag *)
Section CancellationFlagFacts.
Import Sync.

Lemma cp_flag_stays (sch : list ClockPulser.event) (s : ClockPulser.state) :
  ClockPulser.m_interrupted s = true →
  ClockPulser.m_interrupted (ClockPulser.exec sch s) = true.
Proof.
  apply (cp_exec_ind (λ s, ClockPulser.m_interrupted s = true)).
  clear. intros e s Hi. destruct e; cbn; try done.
  unfold ClockPulser.run_step.
  destruct (ClockPulser.at_ s); cbn; try case_decide; cbn; try done.
  by rewrite Hi.
Qed.

Lemma dp_flag_stays (sch : list DelayedNotifiedPulser.event)
    (s : DelayedNotifiedPulser.state) :
  DelayedNotifiedPulser.m_interrupted s = true →
  DelayedNotifiedPulser.m_interrupted (DelayedNotifiedPulser.exec sch s) = true.
Proof.
  apply (dp_exec_ind (λ s, DelayedNotifiedPulser.m_interrupted s = true)).
  clear. intros e s Hi. destruct e; cbn; try done.
  unfold DelayedNotifiedPulser.run_step.
  destruct (DelayedNotifiedPulser.at_ s); cbn; try case_decide; cbn; try done.
  - by destruct (wait_poll _).
  - by rewrite Hi.
Qed.

Lemma tm_flag_stays (sch : list SelfDeletingTimer.event)
    (s s' : SelfDeletingTimer.state) :
  SelfDeletingTimer.m_interrupted s = true →
  SelfDeletingTimer.reached (SelfDeletingTimer.exec sch s) = Some s' →
  SelfDeletingTimer.m_interrupted s' = true.
Proof.
  apply (tm_exec_ind (λ s, SelfDeletingTimer.m_interrupted s = true)).
  clear. intros e s s' Hi He. destruct s as [w i iv p n log del].
  cbn in Hi. subst i. destruct e as [| | | |d]; cbn in He.
  - unfold SelfDeletingTimer.spawn in He. cbn in He. destruct del; [done|].
    destruct (start w); cbn in He; try (by injection He as <-).
    destruct p; try done. by injection He as <-.
  - unfold SelfDeletingTimer.release in He. cbn in He. destruct del; [done|].
    destruct (detach w); cbn in He; by injection He as <-.
  - unfold SelfDeletingTimer.run_step in He. cbn in He.
    destruct p; cbn in He; try case_decide; try destruct (destroy w);
      cbn in He; try done; by injection He as <-.
  - unfold SelfDeletingTimer.interrupt in He. cbn in He. destruct del; [done|].
    by injection He as <-.
  - by injection He as <-.
Qed.

(** C7. For each of the four pulsers: the flag is down on a pulser that
    was started (on a timer, that was created); interrupt() (and kill(), where
    there is one) raises it; calling interrupt() again, any number of times,
    changes nothing more; and once the flag is up it is up after every
    further schedule of steps of the loop, calls by other threads and passing
    of time.  On a timer, which deletes itself, interrupt() on an object that
    is not deleted returns with the flag up and the object not deleted, and
    the flag is up in every state a further schedule reaches. *)
Theorem cancellation_flag_is_monotonic :
  ((∀ interval t0,
      ClockPulser.m_interrupted (ClockPulser.started interval t0) = false) ∧
   (∀ s k, ClockPulser.m_interrupted (ClockPulser.interrupt s) = true ∧
           Nat.iter (S k) ClockPulser.interrupt s = ClockPulser.interrupt s) ∧
   (∀ sch s, ClockPulser.m_interrupted s = true →
             ClockPulser.m_interrupted (ClockPulser.exec sch s) = true)) ∧
  (NotifiedPulser.m_interrupted NotifiedPulser.started = false ∧
   (∀ s k, NotifiedPulser.m_interrupted (NotifiedPulser.interrupt s) = true ∧
           NotifiedPulser.m_interrupted (NotifiedPulser.kill s) = true ∧
           Nat.iter (S k) NotifiedPulser.interrupt s = NotifiedPulser.interrupt s) ∧
   (∀ sch s, NotifiedPulser.m_interrupted s = true →
             NotifiedPulser.m_interrupted (NotifiedPulser.exec sch s) = true)) ∧
  ((∀ delay t0,
      DelayedNotifiedPulser.m_interrupted (DelayedNotifiedPulser.started delay t0)
        = false) ∧
   (∀ s k,
      DelayedNotifiedPulser.m_interrupted (DelayedNotifiedPulser.interrupt s) = true ∧
      DelayedNotifiedPulser.m_interrupted (DelayedNotifiedPulser.kill s) = true ∧
      Nat.iter (S k) DelayedNotifiedPulser.interrupt s
        = DelayedNotifiedPulser.interrupt s) ∧
   (∀ sch s, DelayedNotifiedPulser.m_interrupted s = true →
             DelayedNotifiedPulser.m_interrupted (DelayedNotifiedPulser.exec sch s)
               = true)) ∧
  ((∀ interval t0,
      SelfDeletingTimer.m_interrupted (SelfDeletingTimer.created interval t0)
        = false) ∧
   (∀ s, SelfDeletingTimer.deleted s = false →
         ∃ s', SelfDeletingTimer.interrupt s = SelfDeletingTimer.Going s' ∧
               SelfDeletingTimer.m_interrupted s' = true ∧
               SelfDeletingTimer.deleted s' = false ∧
               SelfDeletingTimer.interrupt s' = SelfDeletingTimer.Going s' ∧
               ∀ k, SelfDeletingTimer.exec
                      (replicate k SelfDeletingTimer.Interrupt) s'
                    = SelfDeletingTimer.Going s') ∧
   (∀ sch s s', SelfDeletingTimer.m_interrupted s = true →
                SelfDeletingTimer.reached (SelfDeletingTimer.exec sch s) = Some s' →
                SelfDeletingTimer.m_interrupted s' = true)).
Proof.
  split; [|split; [|split]]; (split; [done|split]).
  - intros s k. split; [done|]. induction k as [|k IH]; [done|].
    rewrite Nat.iter_succ, IH. done.
  - apply cp_flag_stays.
  - intros s k. split; [done|]. split; [done|]. induction k as [|k IH]; [done|].
    rewrite Nat.iter_succ, IH. done.
  - intros sch s. apply np_interrupted_stays.
  - intros s k. split; [done|]. split; [done|]. induction k as [|k IH]; [done|].
    rewrite Nat.iter_succ, IH. done.
  - apply dp_flag_stays.
  - intros s Hd. unfold SelfDeletingTimer.interrupt. rewrite Hd.
    eexists. split; [done|]. cbn.
    split; [done|]. split; [done|]. split; [done|].
    intros k. induction k as [|k IH]; [done|]. exact IH.
  - apply tm_flag_stays.
Qed.

Lemma cancellation_flag_is_monotonic_witness :
  NotifiedPulser.m_interrupted
    (NotifiedPulser.exec
       [NotifiedPulser.Wakeup; NotifiedPulser.Step; NotifiedPulser.Interrupt;
        NotifiedPulser.Step; NotifiedPulser.Wakeup; NotifiedPulser.Step]
       (NotifiedPulser.interrupt NotifiedPulser.started)) = true ∧
  (∃ s', SelfDeletingTimer.interrupt
           (SelfDeletingTimer.State (Thread None) false 4
              (SelfDeletingTimer.Sleeping 4) 2 [sleep_for 0 4] false)
         = SelfDeletingTimer.Going s' ∧
         SelfDeletingTimer.m_interrupted s' = true) ∧
  SelfDeletingTimer.m_interrupted
    (SelfDeletingTimer.State (Thread None) true 4 SelfDeletingTimer.AtCheck 9
       [sleep_for 0 4] false)
    = true.
Proof.
  pose proof cancellation_flag_is_monotonic
    as (_ & (_ & _ & Hnp) & _ & (_ & Hint & Htm)).
  split; [|split].
  - apply Hnp. reflexivity.
  - destruct (Hint (SelfDeletingTimer.State (Thread None) false 4
                      (SelfDeletingTimer.Sleeping 4) 2 [sleep_for 0 4] false)
                   eq_refl) as (s' & Hs' & Hflag & _).
    exists s'. split; [exact Hs'|exact Hflag].
  - apply (Htm [SelfDeletingTimer.Step; SelfDeletingTimer.Elapse 9;
                SelfDeletingTimer.Step]
               (SelfDeletingTimer.State (Thread None) true 4
                  SelfDeletingTimer.AtSleep 0 [] false));
      reflexivity.
Defined.

End CancellationFlagFacts.

(** ** UnionFind *)
Section UnionFindFacts.
Context `{Countable T}.
Import UnionFind.
Implicit Types (m : gmap T T) (a b r x : T).

Lemma root_at_of m a r d : root_at m a r d → root_of m a r.
Proof. induction 1; [by apply root_here|by eapply root_up]. Qed.

Lemma root_of_at m a r : root_of m a r → ∃ d, root_at m a r d.
Proof.
  induction 1 as [r Hr|a f r Ha _ [d IH]].
  - exists 0. by apply root_at_here.
  - exists (S d). by eapply root_at_up.
Qed.

Lemma root_at_det m a r r' d d' :
  root_at m a r d → root_at m a r' d' → r = r' ∧ d = d'.
Proof.
  intros Hr. revert r' d'.
  induction Hr as [r Hr|a f r d Ha _ IH]; intros r' d' Hr'.
  - inversion Hr'; subst; [done|congruence].
  - inversion Hr' as [|? f' ? d0 Ha' Hf']; subst; [congruence|].
    assert (f' = f) as -> by congruence.
    destruct (IH _ _ Hf') as [-> ->]. done.
Qed.

Lemma root_of_det m a r r' : root_of m a r → root_of m a r' → r = r'.
Proof.
  intros [d Hd]%root_of_at [d' Hd']%root_of_at.
  by destruct (root_at_det _ _ _ _ _ _ Hd Hd').
Qed.

Lemma root_of_is_root m a r : root_of m a r → m !! r = None.
Proof. by induction 1. Qed.

(** An element that lies deeper than a chain of fathers is not on it. *)
Lemma root_at_delete m a x r d :
  root_at m x r d → (∀ r' d', root_at m a r' d' → d < d') →
  root_at (delete a m) x r d.
Proof.
  induction 1 as [r Hr|x f r d Hx Hf IH]; intros Hdeep.
  - apply root_at_here. rewrite lookup_delete_None. by right.
  - assert (x ≠ a).
    { intros ->. assert (S d < S d); [|lia].
      eapply Hdeep. by eapply root_at_up. }
    eapply root_at_up.
    + by rewrite lookup_delete_ne.
    + apply IH. intros r' d' Hr'. specialize (Hdeep _ _ Hr'). lia.
Qed.

(** A chain of fathers is no longer than the container is large. *)
Lemma root_at_size d : ∀ m a r, root_at m a r d → d ≤ size m.
Proof.
  induction d as [|d IH]; intros m a r Hr; [lia|].
  inversion Hr as [|? f ? ? Ha Hf]; subst.
  assert (Hdel : root_at (delete a m) f r d).
  { apply root_at_delete; [done|]. intros r' d' Hr'.
    destruct (root_at_det _ _ _ _ _ _ Hr Hr') as [_ <-]. lia. }
  apply IH in Hdel.
  rewrite <- (insert_delete_id m a f Ha).
  rewrite map_size_insert_None by apply lookup_delete_eq. lia.
Qed.

(** Path compression: giving an element its root as father moves no
    element to another root. *)
Lemma compress_same_roots m a r :
  root_of m a r → a ≠ r → same_roots m (<[a:=r]> m).
Proof.
  intros Ha Hne x r'.
  pose proof (root_of_is_root _ _ _ Ha) as Hr.
  split.
  - induction 1 as [x Hx|x f r' Hx Hf IH].
    + apply lookup_insert_None in Hx as [Hx _]. by apply root_here.
    + destruct (decide (x = a)) as [->|Hxa].
      * rewrite lookup_insert_eq in Hx. injection Hx as <-.
        rewrite (root_of_det _ _ _ _ IH (root_here _ _ Hr)). done.
      * rewrite lookup_insert_ne in Hx by done. by eapply root_up.
  - induction 1 as [x Hx|x f r' Hx Hf IH].
    + assert (x ≠ a).
      { intros ->. apply Hne. eapply root_of_det; [|done]. by apply root_here. }
      apply root_here. by rewrite lookup_insert_ne.
    + destruct (decide (x = a)) as [->|Hxa].
      * assert (r' = r) as ->.
        { eapply root_of_det; [|done]. by eapply root_up. }
        eapply root_up; [apply lookup_insert_eq|].
        apply root_here. by rewrite lookup_insert_ne.
      * eapply root_up; [|done]. by rewrite lookup_insert_ne.
Qed.

Lemma same_roots_trans m1 m2 m3 :
  same_roots m1 m2 → same_roots m2 m3 → same_roots m1 m3.
Proof. intros H12 H23 x r. etrans; [apply H23|apply H12]. Qed.

Lemma same_roots_forest m m' : same_roots m m' → forest m → forest m'.
Proof. intros Hs Hf a. destruct (Hf a) as [r Hr]. exists r. by apply Hs. Qed.

(** [find_rec] with fuel for the whole chain: the root, in a container that
    is the old one compressed. *)
Lemma find_rec_spec m a r d :
  root_at m a r d → ∀ fuel, d ≤ fuel →
  ∃ m', find_rec fuel m a = Some (r, m') ∧
        same_roots m m' ∧ compressed m m' ∧ through m' a = r.
Proof.
  induction 1 as [r Hr|a f r d Ha Hf IH]; intros fuel Hfuel.
  - exists m. split; [destruct fuel; cbn; by rewrite Hr|].
    split; [done|]. split; [intros k; by left|].
    unfold through. by rewrite Hr.
  - destruct fuel as [|fuel]; [lia|].
    destruct (IH fuel) as (m1 & Hfind & Hsame & Hcomp & _); [lia|].
    exists (<[a:=r]> m1). cbn. rewrite Ha, Hfind.
    assert (Har : root_of m a r) by (eapply root_up; [done|by eapply root_at_of]).
    assert (a ≠ r).
    { intros ->. apply root_of_is_root in Har. congruence. }
    refine (conj _ (conj _ (conj _ _))); [done| | |].
    + eapply same_roots_trans; [exact Hsame|].
      apply compress_same_roots; [by apply Hsame|done].
    + intros k. destruct (decide (k = a)) as [->|Hk].
      * right. split; [by eexists|]. exists r. by rewrite lookup_insert_eq.
      * rewrite lookup_insert_ne by done. apply Hcomp.
    + unfold through. by rewrite lookup_insert_eq.
Qed.

(** On a forest [find] returns, and returns the root. *)
Lemma find_spec m a :
  forest m →
  ∃ r m', find m a = Some (r, m') ∧ root_of m a r ∧
          same_roots m m' ∧ compressed m m' ∧ through m' a = r.
Proof.
  intros Hf. destruct (Hf a) as [r Hr].
  destruct (root_of_at _ _ _ Hr) as [d Hd].
  destruct (find_rec_spec _ _ _ _ Hd (size m)) as (m' & Hfind & Hrest).
  { by eapply root_at_size. }
  exists r, m'. done.
Qed.

Lemma root_spec m a r : forest m → root m a = Some r ↔ root_of m a r.
Proof.
  intros Hf. destruct (find_spec m a Hf) as (r0 & m' & Hfind & Hr0 & _).
  unfold root. rewrite Hfind. cbn. split.
  - by intros [= <-].
  - intros Hr. f_equal. by eapply root_of_det.
Qed.

Lemma same_roots_root m m' x :
  forest m → same_roots m m' → root m' x = root m x.
Proof.
  intros Hf Hs. pose proof (same_roots_forest _ _ Hs Hf) as Hf'.
  destruct (Hf x) as [r Hr].
  rewrite (proj2 (root_spec m x r Hf) Hr).
  apply root_spec; [done|]. by apply Hs.
Qed.

(** Reading through a reference obtained from an earlier [find] still gives
    the root after a later [find] has compressed the container. *)
Lemma through_compressed m m' a r :
  root_of m a r → through m a = r → compressed m m' → through m' a = r.
Proof.
  intros Hr Ht Hc. unfold through in *.
  destruct (Hc a) as [->|[_ (r' & Hr' & ->)]]; [done|].
  cbn. by eapply root_of_det.
Qed.

(** Linking one root under another. *)
Lemma link_roots m ra rb x r :
  m !! ra = None → m !! rb = None → ra ≠ rb → root_of m x r →
  root_of (<[rb:=ra]> m) x (if decide (r = rb) then ra else r).
Proof.
  intros Hra Hrb Hne. induction 1 as [x Hx|x f r Hx Hf IH].
  - case_decide as Hd.
    + subst x. eapply root_up; [apply lookup_insert_eq|].
      apply root_here. by rewrite lookup_insert_ne.
    + apply root_here. by rewrite lookup_insert_ne.
  - eapply root_up; [|done]. rewrite lookup_insert_ne; [done|congruence].
Qed.

Lemma link_forest m ra rb :
  m !! ra = None → m !! rb = None → ra ≠ rb → forest m →
  forest (<[rb:=ra]> m).
Proof.
  intros Hra Hrb Hne Hf x. destruct (Hf x) as [r Hr].
  eexists. by apply link_roots.
Qed.

(** What [merge] does on a forest. *)
Lemma merge_spec m a b :
  forest m →
  ∃ ra rb m2,
    root_of m a ra ∧ root_of m b rb ∧ same_roots m m2 ∧ compressed m m2 ∧
    merge m a b = Some (if decide (ra ≠ rb) then <[rb:=ra]> m2 else m2).
Proof.
  intros Hf.
  destruct (find_spec m a Hf) as (ra & m1 & Hfa & Hra & Hs1 & Hc1 & Hta).
  pose proof (same_roots_forest _ _ Hs1 Hf) as Hf1.
  destruct (find_spec m1 b Hf1) as (rb & m2 & Hfb & Hrb & Hs2 & Hc2 & Htb).
  exists ra, rb, m2.
  assert (Hs : same_roots m m2) by (by eapply same_roots_trans).
  split; [done|]. split; [by apply Hs1|]. split; [done|]. split.
  - intros k. destruct (Hc2 k) as [Hk|[Hk1 (r & Hr & Hk)]].
    + rewrite Hk. apply Hc1.
    + destruct (Hc1 k) as [Hk'|[Hk' (r' & Hr' & Hk'')]].
      * right. rewrite <- Hk'. split; [done|]. exists r. split; [by apply Hs1|done].
      * right. split; [done|]. exists r. split; [by apply Hs1|done].
  - unfold merge. rewrite Hfa, Hfb.
    rewrite (through_compressed m1 m2 a ra) by (done || by apply Hs1).
    rewrite Htb.
    case_decide; [|done]. unfold emplace.
    assert (m2 !! rb = None) as ->; [|done].
    eapply root_of_is_root. apply Hs2. done.
Qed.

Lemma merge_forest m a b m' :
  forest m → merge m a b = Some m' → forest m'.
Proof.
  intros Hf Hm.
  destruct (merge_spec m a b Hf) as (ra & rb & m2 & Hra & Hrb & Hs & _ & Hm').
  rewrite Hm' in Hm. injection Hm as <-.
  pose proof (same_roots_forest _ _ Hs Hf) as Hf2.
  case_decide; [|done].
  apply link_forest; try done; eapply root_of_is_root; by apply Hs.
Qed.

Lemma root_of_within (P : T → Prop) m x r :
  within P m → root_of m x r → P x → P r.
Proof.
  intros Hw. induction 1 as [|x f r Hx _ IH]; [done|].
  intros _. apply IH. by destruct (Hw _ _ Hx).
Qed.

Lemma compressed_within (P : T → Prop) m m' :
  within P m → compressed m m' → within P m'.
Proof.
  intros Hw Hc k v Hk. destruct (Hc k) as [Hk'|[[v' Hv'] (r & Hr & Hk')]].
  - rewrite Hk' in Hk. by apply Hw in Hk.
  - rewrite Hk' in Hk. injection Hk as <-.
    destruct (Hw _ _ Hv') as [Pk _]. split; [done|].
    by eapply root_of_within.
Qed.

(** Every list of calls on a forest returns, and leaves a forest whose
    entries are entries it had or elements handed to [merge]. *)
Lemma run_forest (P : T → Prop) (ops : list op) :
  ∀ m, forest m → within P m → (∀ x, x ∈ merged ops → P x) →
  ∃ m', run ops m = Some m' ∧ forest m' ∧ within P m'.
Proof.
  induction ops as [|o ops IH]; intros m Hf Hw HP; [by exists m|].
  destruct o as [a|a b]; cbn [run apply].
  - destruct (find_spec m a Hf) as (r & m1 & Hfind & _ & Hs & Hc & _).
    rewrite Hfind. cbn. apply IH.
    + by eapply same_roots_forest.
    + by eapply compressed_within.
    + done.
  - destruct (merge_spec m a b Hf) as (ra & rb & m2 & Hra & Hrb & Hs & Hc & Hm).
    rewrite Hm. apply IH.
    + eapply merge_forest; done.
    + pose proof (compressed_within P _ _ Hw Hc) as Hw2.
      case_decide; [|done].
      intros k v Hk. apply lookup_insert_Some in Hk as [[<- <-]|[_ Hk]].
      * split.
        -- apply (root_of_within P m b rb Hw Hrb), HP. cbn. set_solver.
        -- apply (root_of_within P m a ra Hw Hra), HP. cbn. set_solver.
      * by apply Hw2 in Hk.
    + intros x Hx. apply HP. set_solver.
Qed.

Lemma forest_empty : forest (∅ : gmap T T).
Proof. intros a. exists a. apply root_here. apply lookup_empty. Qed.

Lemma find_of_root m a : m !! a = None → find m a = Some (a, m).
Proof. intros Ha. unfold find. destruct (size m); cbn; by rewrite Ha. Qed.

(** The roots after [merge]: the root of [b] has gone under the root of
    [a], every other element keeps its root. *)
Lemma merge_roots m a b ra rb :
  forest m → root m a = Some ra → root m b = Some rb →
  ∃ m1, merge m a b = Some m1 ∧ forest m1 ∧
        ∀ x, root m1 x = (λ r, if decide (r = rb) then ra else r) <$> root m x.
Proof.
  intros Hf Ha%root_spec Hb%root_spec; [|done|done].
  destruct (merge_spec m a b Hf) as (ra' & rb' & m2 & Hra & Hrb & Hs & _ & Hm).
  assert (ra' = ra) as -> by (by eapply root_of_det).
  assert (rb' = rb) as -> by (by eapply root_of_det).
  eexists. split; [exact Hm|].
  assert (Hf1 : forest (if decide (ra ≠ rb) then <[rb:=ra]> m2 else m2)).
  { by eapply merge_forest. }
  split; [done|]. intros x. destruct (Hf x) as [r Hr].
  rewrite (proj2 (root_spec m x r Hf) Hr). cbn.
  apply root_spec; [done|].
  pose proof (same_roots_forest _ _ Hs Hf) as Hf2.
  case_decide as Hne.
  - apply link_roots; try done; try (eapply root_of_is_root; by apply Hs).
    by apply Hs.
  - assert (ra = rb) as -> by (by destruct (decide (ra = rb))).
    assert ((if decide (r = rb) then rb else r) = r) as ->
      by (by case_decide).
    by apply Hs.
Qed.

(** [find] on the lowest element of a chain 1 -> 2 -> 3 -> 4 hangs every
    element of the chain under the root. *)
Example find_compresses_chain :
  find ({[1 := 2; 2 := 3; 3 := 4]} : gmap nat nat) 1
    = Some (4, {[1 := 4; 2 := 4; 3 := 4]}).
Proof. by vm_compute. Qed.

(** On a container with a cycle (which no call builds) the recursion of
    [find] is cut off. *)
Example find_on_cycle :
  find ({[1 := 2; 2 := 1]} : gmap nat nat) 1 = None.
Proof. by vm_compute. Qed.

(** C9. After any list of calls on a structure that was constructed empty
    (every one of which returns): merge(a, b) returns and find(a) and find(b)
    after it report one and the same root, every element whose root was that
    of b now having the root of a and every other element the root it had;
    merge(a, b) on elements that already share their root, and so merge(a, b)
    done a second time, leaves every element its root; find(a) on the fresh
    structure, and on the current one when a was never handed to merge,
    returns a and changes nothing; and find(a) returns and leaves every
    element its root. *)
Theorem merge_unites_find_preserves (ops : list op) (a b : T) :
  ∃ m, run ops ∅ = Some m ∧
    (∃ ra rb m1 m2 m3,
       root m a = Some ra ∧ root m b = Some rb ∧
       merge m a b = Some m1 ∧
       find m1 a = Some (ra, m2) ∧ find m2 b = Some (ra, m3) ∧
       root m1 a = root m1 b ∧
       ∀ x, root m1 x = (λ r, if decide (r = rb) then ra else r) <$> root m x) ∧
    (root m a = root m b →
       ∃ m1, merge m a b = Some m1 ∧ ∀ x, root m1 x = root m x) ∧
    (∃ m1 m2, merge m a b = Some m1 ∧ merge m1 a b = Some m2 ∧
              ∀ x, root m2 x = root m1 x) ∧
    find ∅ a = Some (a, ∅) ∧
    (a ∉ merged ops → find m a = Some (a, m)) ∧
    (∃ r m', find m a = Some (r, m') ∧
             ∀ x, is_Some (root m x) ∧ root m' x = root m x).
Proof.
  destruct (run_forest (λ x, x ∈ merged ops) ops ∅ forest_empty)
    as (m & Hrun & Hf & Hw); [intros k v Hk; by rewrite lookup_empty in Hk|done|].
  exists m. split; [done|].
  destruct (Hf a) as [ra Hra]. destruct (Hf b) as [rb Hrb].
  pose proof (proj2 (root_spec m a ra Hf) Hra) as Hra'.
  pose proof (proj2 (root_spec m b rb Hf) Hrb) as Hrb'.
  destruct (merge_roots m a b ra rb Hf Hra' Hrb') as (m1 & Hm & Hf1 & Hroots).
  assert (Ha1 : root m1 a = Some ra).
  { rewrite Hroots, Hra'. cbn. by case_decide. }
  assert (Hb1 : root m1 b = Some ra).
  { rewrite Hroots, Hrb'. cbn. by rewrite decide_True. }
  assert (Hsame : ∀ m a b, forest m → root m a = root m b →
            ∃ m1, merge m a b = Some m1 ∧ ∀ x, root m1 x = root m x).
  { clear. intros m a b Hf Hab. destruct (Hf a) as [ra Hra].
    pose proof (proj2 (root_spec m a ra Hf) Hra) as Hra'.
    assert (Hrb' : root m b = Some ra) by congruence.
    destruct (merge_roots m a b ra ra Hf Hra' Hrb') as (m1 & Hm & _ & Hroots).
    exists m1. split; [done|]. intros x. rewrite Hroots.
    destruct (root m x) as [r|]; [|done]. cbn. by case_decide; subst. }
  split; [|split; [|split; [|split; [|split]]]].
  - destruct (find_spec m1 a Hf1) as (r & m2 & Hfa & Hr & Hs2 & _).
    pose proof (same_roots_forest _ _ Hs2 Hf1) as Hf2.
    destruct (find_spec m2 b Hf2) as (r' & m3 & Hfb & Hr' & _).
    assert (r = ra) as ->.
    { apply root_spec in Ha1; [|done]. by eapply root_of_det. }
    assert (r' = ra) as ->.
    { apply root_spec in Hb1; [|done]. apply Hs2 in Hr'. by eapply root_of_det. }
    exists ra, rb, m1, m2, m3. rewrite Ha1, Hb1. done.
  - by apply Hsame.
  - destruct (Hsame m1 a b Hf1) as (m2 & Hm2 & Hroots2); [congruence|].
    by exists m1, m2.
  - apply find_of_root, lookup_empty.
  - intros Hno. apply find_of_root.
    destruct (m !! a) as [v|] eqn:Hv; [|done].
    by destruct (Hw _ _ Hv).
  - destruct (find_spec m a Hf) as (r & m' & Hfind & _ & Hs & _).
    exists r, m'. split; [done|]. intros x. split.
    + destruct (Hf x) as [rx Hrx]. exists rx. by apply root_spec.
    + by apply same_roots_root.
Qed.

End UnionFindFacts.

Lemma merge_unites_find_preserves_witness :
  let ops := [UnionFind.Merge 1 2; UnionFind.Merge 3 4; UnionFind.Find 2;
              UnionFind.Merge 2 4] in
  let m : gmap nat nat := {[2 := 1; 4 := 3; 3 := 1]} in
  UnionFind.run ops ∅ = Some m ∧ UnionFind.find m 7 = Some (7, m).
Proof.
  intros ops m.
  assert (Hrun : UnionFind.run ops ∅ = Some m) by (by vm_compute).
  split; [exact Hrun|].
  destruct (merge_unites_find_preserves ops 7 4)
    as (m' & Hrun' & _ & _ & _ & _ & Hfresh & _).
  rewrite Hrun in Hrun'. injection Hrun' as <-.
  apply Hfresh. cbn. rewrite !not_elem_of_cons. repeat split; try done.
  apply not_elem_of_nil.
Defined.

(* ===================================================================== *)
(** * Part III: further properties of the same code                       *)
(* ===================================================================== *)

(** ** notifiable: counting *)
Section FlagCounting.
Import Sync.

Lemma consumed_app (a b : list flag_op) (n : notifiable) :
  consumed (a ++ b) n = consumed a n + consumed b (flag_after a n).
Proof.
  revert n. induction a as [|o a IH]; intros n; [done|].
  cbn [app consumed]. rewrite IH. unfold flag_after. cbn [foldl]. lia.
Qed.

Lemma flag_after_app (a b : list flag_op) (n : notifiable) :
  flag_after (a ++ b) n = flag_after b (flag_after a n).
Proof. unfold flag_after. by rewrite foldl_app. Qed.

(** A signal is consumed at most once. *)
Lemma consumed_bound (h : list flag_op) (n : notifiable) :
  consumed h n + (if m_wake (flag_after h n) then 1 else 0)
    ≤ (if m_wake n then 1 else 0) + notified h.
Proof.
  revert n. induction h as [|o h IH]; intros n; [cbn; lia|].
  change (flag_after (o :: h) n) with (flag_after h (snd (flag_call o n))).
  specialize (IH (snd (flag_call o n))). cbn [consumed].
  destruct n as [[]], o; cbn in *; lia.
Qed.

Lemma consumed_notifies (k : nat) (n : notifiable) :
  consumed (replicate k Notify) n = 0 ∧
  flag_after (replicate (S k) Notify) n = Notifiable true.
Proof.
  revert n. induction k as [|k IH]; intros n; [done|].
  destruct (IH (notify n)) as [Hc Hf]. split; [exact Hc|exact Hf].
Qed.

Lemma consumed_consumers (cs : list flag_op) (n : notifiable) :
  Notify ∉ cs →
  consumed cs n = (if m_wake n then if cs is [] then 0 else 1 else 0) ∧
  (cs ≠ [] → flag_after cs n = Notifiable false).
Proof.
  revert n. induction cs as [|o cs IH]; intros n Hno.
  - split; [by destruct (m_wake n)|done].
  - apply not_elem_of_cons in Hno as [Ho Hno].
    assert (Hdown : snd (flag_call o n) = Notifiable false).
    { destruct n as [[]], o; done. }
    destruct (IH (Notifiable false) Hno) as [Hc Hf]. split.
    + cbn [consumed]. rewrite Hdown, Hc. destruct n as [[]], o; cbn; done.
    + intros _. change (flag_after (o :: cs) n)
        with (flag_after cs (snd (flag_call o n))). rewrite Hdown.
      destruct cs; [done|]. by apply Hf.
Qed.

(** X1. In every history of notify(), try_wait() and wait() calls on one
    flag, by any number of threads, the calls that consume a signal (a
    try_wait() returning true, a wait() returning) are at most as many as
    the notify() calls, plus one if the flag was up at the beginning.  And
    when the history is a sequence of rounds, each one or more notify()
    followed by one or more consuming attempts, exactly one attempt per round
    succeeds. *)
Theorem signals_are_consumed_at_most_once (h : list flag_op) (n : notifiable) :
  consumed h n ≤ (if m_wake n then 1 else 0) + notified h ∧
  (∀ rounds : list (nat * list flag_op),
     Forall (λ r, r.2 ≠ [] ∧ Notify ∉ r.2) rounds →
     consumed (concat ((λ r, replicate (S r.1) Notify ++ r.2) <$> rounds)) n
       = length rounds).
Proof.
  split.
  - pose proof (consumed_bound h n). lia.
  - intros rounds. revert n.
    induction rounds as [|[k cs] rounds IH]; intros n Hr; [done|].
    apply Forall_cons in Hr as [[Hne Hno] Hr]. cbn in Hne, Hno.
    cbn [fmap list_fmap concat fst snd]. rewrite !consumed_app, IH by done.
    destruct (consumed_notifies k n) as [_ Hup].
    assert (Hk : consumed (replicate (S k) Notify) n = 0).
    { apply (consumed_notifies (S k)). }
    rewrite Hk, Hup.
    destruct (consumed_consumers cs (Notifiable true) Hno) as [-> _].
    cbn. destruct cs; [done|]. cbn. lia.
Qed.

Lemma signals_are_consumed_at_most_once_witness :
  consumed (concat ((λ r : nat * list flag_op, replicate (S r.1) Notify ++ r.2)
                      <$> [(2, [Wait; TryWait]); (0, [TryWait])]))
           notifiable_new = 2.
Proof.
  apply (proj2 (signals_are_consumed_at_most_once [] notifiable_new)
           [(2, [Wait; TryWait]); (0, [TryWait])]).
  repeat constructor; cbn; try done;
    rewrite ?not_elem_of_cons; repeat split; try done; apply not_elem_of_nil.
Defined.

End FlagCounting.

(** ** PolymorphicThread: the rest of the interface *)
Section ThreadInterface.
Import Sync.

(** X2. After any history of calls on a worker: active() tells whether the
    worker is attached (started, and neither joined nor detached since);
    detach() throws on a worker that is not attached and otherwise returns
    and leaves it not attached, whether or not the execution has ended;
    start() on an attached worker ends in std::terminate, and on a worker
    that is not attached, also one that was started and joined or detached
    before, it returns with a running execution attached. *)
Theorem active_detach_start_follow_history (h : list thread_op) (w : PolymorphicThread) :
  replay h thread_new = Some w →
  active w = attached h ∧
  detach w = (if attached h then Returns thread_new else ThrowsSystemError) ∧
  start w = (if attached h then Terminates else Returns (Thread (Some Running))) ∧
  (attached h = true → replay (h ++ [Start]) thread_new = None) ∧
  (attached h = false →
     ∃ w', replay (h ++ [Start]) thread_new = Some w' ∧ active w' = true ∧
           join w' = Blocks).
Proof.
  intros Hh. pose proof (replay_handle h w Hh) as Hw.
  assert (Hsnoc : replay (h ++ [Start]) thread_new
                  = if attached h then None else Some (Thread (Some Running))).
  { rewrite replay_snoc, Hh. cbn. unfold start. rewrite Hw.
    by destruct (attached h). }
  rewrite Hsnoc. unfold active, detach, start, join. rewrite Hw.
  destruct (attached h); refine (conj _ (conj _ (conj _ (conj _ _)))); try done.
  intros _. by eexists.
Qed.

Lemma active_detach_start_follow_history_witness :
  active (Thread (Some Running)) = true ∧
  replay ([Start; RunReturns; Join; Start] ++ [Start]) thread_new = None.
Proof.
  pose proof (active_detach_start_follow_history
                [Start; RunReturns; Join; Start] (Thread (Some Running)) eq_refl)
    as (Hact & _ & _ & Hterm & _).
  split; [exact Hact|]. apply Hterm. reflexivity.
Defined.

(** X3. After any history of calls on a worker, destroying it ends in
    std::terminate exactly when the worker is attached: a started worker has
    to be joined or detached before it is destroyed, even when its execution
    has already returned. *)
Theorem destroy_terminates_iff_attached (h : list thread_op) (w : PolymorphicThread) :
  replay h thread_new = Some w →
  (destroy w = Terminates ↔ attached h = true) ∧
  (destroy w = Returns tt ↔ attached h = false) ∧
  (∀ w', replay (h ++ [Start; RunReturns]) thread_new = Some w' →
         destroy w' = Terminates).
Proof.
  intros Hh.
  assert (Hd : ∀ h w, replay h thread_new = Some w →
             destroy w = if attached h then Terminates else Returns tt).
  { clear. intros h w Hh. unfold destroy. rewrite (replay_handle h w Hh).
    by destruct (attached h). }
  rewrite (Hd _ _ Hh). split; [|split].
  - destruct (attached h); split; done.
  - destruct (attached h); split; done.
  - intros w' Hw'. rewrite (Hd _ _ Hw').
    unfold attached. rewrite rev_app_distr. done.
Qed.

Lemma destroy_terminates_iff_attached_witness :
  destroy (Thread None) = Returns tt ∧
  destroy (Thread (Some Finished)) = Terminates.
Proof.
  split.
  - apply (proj1 (proj2 (destroy_terminates_iff_attached
             [Start; Detach; RunReturns] (Thread None) eq_refl))). reflexivity.
  - apply (proj2 (proj2 (destroy_terminates_iff_attached
             [Start; Detach; RunReturns] (Thread None) eq_refl))). reflexivity.
Defined.

End ThreadInterface.

(** ** ClockPulser: pace and shutdown *)
Section ClockPulserPace.
Import Sync Sync.ClockPulser.

Lemma cp_on_time_event (interval t0 : nat) (e : event) (s : state) :
  on_time interval t0 s → on_time interval t0 (on_event e s).
Proof.
  intros (Hi & Hl & Hk & Hsp & Hpc). destruct s as [i iv p n log].
  cbn in Hi, Hl, Hk, Hsp, Hpc. subst iv. unfold on_time.
  destruct e as [| |d]; cbn.
  - destruct p as [| dl | | |]; cbn.
    + refine (conj _ (conj _ (conj _ (conj _ _)))); try done.
      exists n. split; [done|]. unfold latest in *. cbn. lia.
    + destruct Hpc as (t' & -> & Ht').
      case_decide; cbn; refine (conj _ (conj _ (conj _ (conj _ _)))); try done.
      * exists t'. lia.
      * exists t'. done.
    + destruct i; cbn; done.
    + destruct Hpc as (t' & Ht' & Hle).
      unfold latest, ticks in *. cbn.
      refine (conj _ (conj _ (conj _ (conj _ _)))); try done; [lia|].
      destruct (tick_times log) as [|t1 ts]; [done|]. cbn in *. split; [lia|done].
    + done.
  - done.
  - refine (conj _ (conj _ (conj _ (conj _ _)))); try done; [lia|].
    destruct p; try done; destruct Hpc as (t' & Ht'); exists t'; lia.
Qed.

Lemma cp_on_time_started (interval t0 : nat) :
  on_time interval t0 (started interval t0).
Proof. unfold on_time, latest. cbn. repeat split; try done. lia. Qed.

Lemma cp_stopping_event (k0 : nat) (e : event) (s : state) :
  stopping k0 s → stopping k0 (on_event e s).
Proof.
  intros [Hi Hk]. destruct s as [i iv p n log]. cbn in Hi, Hk. subst i.
  unfold stopping, ticks in *.
  destruct e, p; cbn in *; try case_decide; cbn; split; try done; lia.
Qed.

(** An interrupted pulser that keeps to its interval has returned one
    interval and four steps later. *)
Lemma cp_stops (interval t0 : nat) (s : state) :
  on_time interval t0 s → m_interrupted s = true →
  at_ (exec [Step; Step; Elapse interval; Step; Step] s) = Returned.
Proof.
  intros (Hi & _ & _ & _ & Hpc) Hflag. destruct s as [i iv p n log].
  cbn in Hi, Hpc, Hflag. subst i iv.
  destruct p as [| dl | | |]; cbn; try done.
  - case_decide; cbn; [done|]. rewrite decide_True by done. done.
  - destruct Hpc as (t' & -> & Ht').
    case_decide; cbn; [done|]. case_decide; cbn; [done|].
    rewrite decide_True by lia. done.
  - case_decide; cbn; [done|]. rewrite decide_True by done. done.
Qed.

Lemma cp_runs_on (sch : list event) (s : state) :
  Interrupt ∉ sch → m_interrupted s = false → at_ s ≠ Returned →
  m_interrupted (exec sch s) = false ∧ at_ (exec sch s) ≠ Returned.
Proof.
  revert s. induction sch as [|e sch IH]; intros s Hno Hi Hp; [done|].
  apply not_elem_of_cons in Hno as [He Hno].
  change (exec (e :: sch) s) with (exec sch (on_event e s)).
  destruct s as [i iv p n log]. cbn in Hi, Hp. subst i.
  apply IH; [done| |]; destruct e, p; try done; cbn; try case_decide; done.
Qed.

(** X5. In every execution of a ClockPulser started at time t0 the times of
    consecutive tick() calls lie at least one interval apart, and by any
    time t no more than (t - t0) / interval ticks have been made: the pulser
    may fall behind the clock, it never runs ahead of it and never catches
    up. *)
Theorem clock_pulser_keeps_pace (interval t0 : nat) (sch : list event) :
  let s' := exec sch (started interval t0) in
  spaced interval (tick_times (calls s')) ∧
  t0 + ticks (calls s') * interval ≤ now s'.
Proof.
  intros s'.
  assert (Hinv : on_time interval t0 s').
  { apply cp_exec_ind; [apply cp_on_time_event|apply cp_on_time_started]. }
  destruct Hinv as (_ & Hl & Hk & Hsp & _). split; [done|lia].
Qed.

(** X6. interrupt() at any moment of an execution of a ClockPulser lets at
    most one more tick() through (one whose flag check had already passed),
    and the loop has returned after at most one more interval: two steps,
    the interval and two steps.  Without interrupt() the loop never
    returns. *)
Theorem clock_pulser_stops_within_an_interval (interval t0 : nat)
    (pre post : list event) :
  let s1 := exec pre (started interval t0) in
  let s' := exec (Interrupt :: post) s1 in
  ticks (calls s') ≤ S (ticks (calls s1)) ∧
  at_ (exec [Step; Step; Elapse interval; Step; Step] s') = Returned ∧
  (Interrupt ∉ pre → at_ s1 ≠ Returned).
Proof.
  intros s1 s'.
  assert (H1 : on_time interval t0 s1).
  { apply cp_exec_ind; [apply cp_on_time_event|apply cp_on_time_started]. }
  assert (Hrun : Interrupt ∉ pre → at_ s1 ≠ Returned).
  { intros Hno. by apply cp_runs_on. }
  clearbody s1.
  assert (H' : on_time interval t0 s').
  { apply cp_exec_ind; [apply cp_on_time_event|done]. }
  assert (Hs : stopping (ticks (calls s1)) s').
  { subst s'. change (exec (Interrupt :: post) s1) with (exec post (interrupt s1)).
    apply (cp_exec_ind (stopping (ticks (calls s1)))); [apply cp_stopping_event|].
    unfold stopping, ticks. cbn. split; [done|]. destruct (at_ s1); lia. }
  split; [|split].
  - destruct Hs as [_ Hk]. unfold ticks in *. destruct (at_ s'); lia.
  - apply (cp_stops interval t0); [done|apply Hs].
  - done.
Qed.

Lemma clock_pulser_stops_within_an_interval_witness :
  at_ (exec [Step; Elapse 5; Step; Step; Step; Elapse 2; Step] (started 5 0))
    ≠ Returned.
Proof.
  refine (proj2 (proj2 (clock_pulser_stops_within_an_interval 5 0
            [Step; Elapse 5; Step; Step; Step; Elapse 2; Step] [])) _).
  intros Hin. repeat (apply elem_of_cons in Hin as [Hin|Hin]; [discriminate Hin|]).
  by apply elem_of_nil in Hin.
Defined.

End ClockPulserPace.

(** ** NotifiedPulser: wakeups and ticks *)
Section NotifiedPulserCounting.
Import Sync Sync.NotifiedPulser.

Lemma np_credit_event (e : event) (s : state) :
  credit (on_event e s) ≤ credit s + (if e is Wakeup then 1 else 0).
Proof.
  destruct s as [i [w] p t]. unfold credit.
  destruct e, p; cbn; unfold wait_poll; cbn; try destruct w; try destruct i;
    cbn; lia.
Qed.

Lemma np_credit_exec (sch : list event) (s : state) :
  credit (exec sch s) ≤ credit s + wakeups sch.
Proof.
  revert s. induction sch as [|e sch IH]; intros s; [cbn; lia|].
  change (exec (e :: sch) s) with (exec sch (on_event e s)).
  specialize (IH (on_event e s)). pose proof (np_credit_event e s).
  destruct e; cbn [wakeups] in *; lia.
Qed.

Lemma np_runs_on (sch : list event) (s : state) :
  Interrupt ∉ sch → m_interrupted s = false → at_ s ≠ Returned →
  m_interrupted (exec sch s) = false ∧ at_ (exec sch s) ≠ Returned.
Proof.
  revert s. induction sch as [|e sch IH]; intros s Hno Hi Hp; [done|].
  apply not_elem_of_cons in Hno as [He Hno].
  change (exec (e :: sch) s) with (exec sch (on_event e s)).
  destruct s as [i [w] p t]. cbn in Hi, Hp. subst i.
  apply IH; [done| |]; destruct e, p; try done; cbn; unfold wait_poll; cbn;
    by destruct w.
Qed.

Lemma np_serving_event (k0 : nat) (e : event) (s : state) :
  e ≠ Interrupt → serving k0 s →
  serving k0 (on_event e s) ∧
  to_tick k0 (on_event e s) ≤ to_tick k0 s - (if e is Step then 1 else 0).
Proof.
  intros He (Hi & Hk & Hs). destruct s as [i [w] p t]. cbn in Hi, Hk, Hs.
  subst i. unfold serving, to_tick.
  assert (Hw : k0 < t ∨ p ≠ Returned ∧ (p = AtWait → w = true)) by exact Hs.
  clear Hs.
  destruct e; [|done|]; destruct p; cbn; unfold wait_poll; cbn;
    try destruct w; cbn; repeat case_decide; try lia.
  all: try (destruct Hw as [?|[Hr Hw]]; [lia|]; first [done|by specialize (Hw eq_refl)]).
  all: split; [split; [done|split; [lia|]]|lia].
  all: first [left; lia | right; split; done].
Qed.

Lemma np_serving_exec (k0 : nat) (sch : list event) (s : state) :
  Interrupt ∉ sch → serving k0 s →
  serving k0 (exec sch s) ∧ to_tick k0 (exec sch s) ≤ to_tick k0 s - steps sch.
Proof.
  revert s. induction sch as [|e sch IH]; intros s Hno Hs.
  - split; [done|cbn; lia].
  - apply not_elem_of_cons in Hno as [He Hno].
    change (exec (e :: sch) s) with (exec sch (on_event e s)).
    destruct (np_serving_event k0 e s) as [Hs1 Hle]; [congruence|done|].
    destruct (IH _ Hno Hs1) as [Hs2 Hle2]. split; [done|].
    destruct e; cbn [steps] in *; lia.
Qed.

(** X7. In every execution of a started NotifiedPulser tick() has been
    called at most as often as wakeup(); without interrupt() or kill() the
    loop never returns, and then no wakeup is lost: whenever wakeup() is
    called, wherever the loop stands, three steps of the loop later at least
    one more tick() has been made. *)
Theorem ticks_follow_wakeups (pre post : list event) :
  let s1 := exec pre started in
  ticked s1 ≤ wakeups pre ∧
  (Interrupt ∉ pre → at_ s1 ≠ Returned) ∧
  (Interrupt ∉ pre → Interrupt ∉ post → 3 ≤ steps post →
     ticked s1 < ticked (exec (Wakeup :: post) s1)).
Proof.
  intros s1. split; [|split].
  - pose proof (np_credit_exec pre started) as Hc.
    unfold credit in Hc. cbn in Hc. fold s1 in Hc.
    destruct (m_wake _), (at_ s1); lia.
  - intros Hno. by apply np_runs_on.
  - intros Hpre Hpost Hsteps.
    destruct (np_runs_on pre started Hpre eq_refl) as [Hi Hp]; [done|].
    fold s1 in Hi, Hp.
    assert (Hs : serving (ticked s1) (wakeup s1)).
    { unfold serving. cbn. split; [done|]. split; [done|]. right. done. }
    change (exec (Wakeup :: post) s1) with (exec post (wakeup s1)).
    destruct (np_serving_exec _ post _ Hpost Hs) as [(_ & _ & Hs') Hle].
    assert (Hz : to_tick (ticked s1) (exec post (wakeup s1)) = 0).
    { assert (to_tick (ticked s1) (wakeup s1) ≤ 3); [|lia].
      unfold to_tick. case_decide; [lia|]. destruct (at_ _); lia. }
    unfold to_tick in Hz. case_decide as Hlt; [exact Hlt|].
    destruct Hs' as [Hlt'|[Hr _]]; [exact Hlt'|].
    destruct (at_ (exec post (wakeup s1))); done.
Qed.

Lemma ticks_follow_wakeups_witness :
  ticked (exec [Wakeup; Step; Step] started)
    < ticked (exec (Wakeup :: [Step; Wakeup; Step; Step])
                   (exec [Wakeup; Step; Step] started)).
Proof.
  apply (proj2 (proj2 (ticks_follow_wakeups [Wakeup; Step; Step]
                         [Step; Wakeup; Step; Step]))).
  - rewrite !not_elem_of_cons. repeat split; try done. apply not_elem_of_nil.
  - rewrite !not_elem_of_cons. repeat split; try done. apply not_elem_of_nil.
  - cbn. lia.
Defined.

End NotifiedPulserCounting.

(** ** DelayedNotifiedPulser: wakeups, ticks and kill() *)
Section DelayedNotifiedPulserShutdown.
Import Sync Sync.DelayedNotifiedPulser.

Lemma dp_credit_wakeups (sch : list event) (s : state) :
  credit (exec sch s) ≤ credit s + wakeups sch.
Proof.
  revert s. induction sch as [|e sch IH]; intros s; [cbn; lia|].
  change (exec (e :: sch) s) with (exec sch (on_event e s)).
  specialize (IH (on_event e s)).
  assert (He : credit (on_event e s)
               ≤ credit s + (if e is Wakeup then 1 else 0)).
  { destruct e; try (etrans; [apply dp_credit_event; discriminate|lia]).
    destruct s as [i [w] dly p n log]. unfold credit. cbn. destruct w; lia. }
  destruct e; cbn [wakeups] in *; lia.
Qed.

Lemma dp_due_event (delay : nat) (e : event) (s : state) :
  due delay s → due delay (on_event e s).
Proof.
  intros [Hd Hp]. destruct s as [i [w] dly p n log]. cbn in Hd, Hp. subst dly.
  unfold due.
  destruct e, p; cbn; unfold wait_poll; cbn; try destruct w; try destruct i;
    try case_decide; cbn; split; try done; lia.
Qed.

Lemma dp_stopping_event (k0 : nat) (e : event) (s : state) :
  stopping k0 s → stopping k0 (on_event e s).
Proof.
  intros [Hi Hk]. destruct s as [i [w] dly p n log]. cbn in Hi, Hk. subst i.
  unfold stopping, ticks in *.
  destruct e, p; cbn in *; unfold wait_poll; cbn; try destruct w;
    try case_decide; cbn; split; try done; lia.
Qed.

Lemma dp_killed_event (k0 : nat) (e : event) (s : state) :
  killed k0 s → killed k0 (on_event e s).
Proof.
  intros (Hi & Hw & Hk). destruct s as [i [w] dly p n log].
  cbn in Hi, Hw, Hk. subst i. unfold killed, ticks in *.
  destruct e, p; cbn in *; unfold wait_poll; cbn; try destruct w;
    try case_decide; cbn; (split; [done|split; [|lia]]); auto;
    destruct Hw as [?|[?|?]]; done.
Qed.

(** A killed loop whose sleep is due has returned one delay and five steps
    later. *)
Lemma dp_killed_exit (k0 delay : nat) (s : state) :
  killed k0 s → due delay s →
  at_ (exec [Step; Step; Elapse delay; Step; Step; Step] s) = Returned.
Proof.
  intros (Hi & Hw & _) [Hd Hp]. destruct s as [i [w] dly p n log].
  cbn in Hi, Hw, Hd, Hp. subst i dly.
  destruct p as [| | | | dl |]; cbn; unfold wait_poll; cbn.
  - destruct Hw as [? | [? | ->]]; done.
  - done.
  - destruct Hw as [? | [? | ->]]; try done. cbn.
    case_decide; cbn; unfold wait_poll; cbn; [done|].
    rewrite decide_True by done. done.
  - destruct Hw as [? | [? | ->]]; try done. cbn.
    case_decide; cbn; unfold wait_poll; cbn; [done|].
    rewrite decide_True by done. done.
  - destruct Hw as [? | [? | ->]]; try done.
    case_decide; cbn; unfold wait_poll; cbn; [done|].
    case_decide; cbn; unfold wait_poll; cbn; [done|].
    rewrite decide_True by lia. done.
  - done.
Qed.

(** X8. In every execution of a started DelayedNotifiedPulser tick() has
    been called at most as often as wakeup().  kill() at any moment, its two
    stores interleaved with anything, lets at most one more tick() through
    (one whose flag check had already passed), and the loop has returned
    after at most one more delay: two steps, the delay and three steps. *)
Theorem delayed_pulser_kill_stops_within_a_delay (delay t0 : nat)
    (pre mid post : list event) :
  let s1 := exec pre (started delay t0) in
  let s' := exec (Interrupt :: mid ++ Wakeup :: post) s1 in
  ticks (calls s1) ≤ wakeups pre ∧
  ticks (calls s') ≤ S (ticks (calls s1)) ∧
  at_ (exec [Step; Step; Elapse delay; Step; Step; Step] s') = Returned.
Proof.
  intros s1 s'.
  assert (Hcount : ticks (calls s1) ≤ wakeups pre).
  { pose proof (dp_credit_wakeups pre (started delay t0)) as Hc.
    fold s1 in Hc. unfold credit in Hc. cbn in Hc.
    destruct (m_wake _), (at_ s1); lia. }
  assert (Hdue : due delay s').
  { do 2 (apply dp_exec_ind; [apply dp_due_event|]). done. }
  clearbody s1.
  assert (Hk : killed (ticks (calls s1)) s').
  { subst s'.
    replace (Interrupt :: mid ++ Wakeup :: post)
      with ((Interrupt :: mid) ++ Wakeup :: post) by done.
    rewrite dp_exec_app.
    change (exec (Wakeup :: post) (exec (Interrupt :: mid) s1))
      with (exec post (wakeup (exec (Interrupt :: mid) s1))).
    apply (dp_exec_ind (killed (ticks (calls s1)))); [apply dp_killed_event|].
    assert (Hs : stopping (ticks (calls s1)) (exec (Interrupt :: mid) s1)).
    { change (exec (Interrupt :: mid) s1) with (exec mid (interrupt s1)).
      apply (dp_exec_ind (stopping (ticks (calls s1)))); [apply dp_stopping_event|].
      unfold stopping, ticks. cbn. split; [done|]. destruct (at_ s1); lia. }
    destruct Hs as [Hi Hk]. unfold killed. cbn. auto. }
  split; [done|]. split.
  - destruct Hk as (_ & _ & Hk). destruct (at_ s'); lia.
  - by eapply dp_killed_exit.
Qed.

End DelayedNotifiedPulserShutdown.

(** ** SelfDeletingTimer: start() and interrupt() against delete this *)
Section SelfDeletingTimerHazard.
Import Sync Sync.SelfDeletingTimer.

Lemma tm_exec_stop (a b : list event) (s : state) :
  (∀ s1, exec a s ≠ Going s1) → exec (a ++ b) s = exec a s.
Proof.
  revert s. induction a as [|e a IH]; intros s Hstop.
  - by destruct (Hstop s).
  - cbn in Hstop |- *. destruct (on_event e s); try done. by apply IH.
Qed.







(** X9. On a timer that was started, as long as less than the interval has
    passed the object is alive and interrupt() returns with the flag up.
    On a deleted object interrupt() has no defined behaviour, whatever
    follows it; and whatever happened before, an interrupt() made one
    interval and five steps of the thread later does not go on: the object
    has deleted itself by then, or its deletion has ended in
    std::terminate. *)
Theorem timer_interrupt_defined_while_alive (interval t0 : nat)
    (sch : list event) (s1 : state) :
  exec (Spawn :: sch) (created interval t0) = Going s1 →
  (now s1 < t0 + interval →
   deleted s1 = false ∧
   ∃ s2, exec [Interrupt] s1 = Going s2 ∧ m_interrupted s2 = true ∧
         deleted s2 = false) ∧
  (deleted s1 = true → ∀ post, exec (Interrupt :: post) s1 = Undefined) ∧
  (∀ post s2,
     exec ([Step; Elapse interval; Step; Step; Step; Step] ++ Interrupt :: post)
          s1 ≠ Going s2).
Proof.
  intros Hex.
  assert (Hinv : inv interval t0 s1)
    by (apply (tm_reachable _ _ sch); by rewrite Hex).
  split; [|split].
  - intros Hlt.
    assert (Hd : deleted s1 = false).
    { destruct Hinv as (_ & _ & _ & Hpc). destruct (at_ s1); [done|..].
      - by destruct Hpc.
      - by destruct Hpc as (t' & _ & _ & _ & ?).
      - by destruct Hpc as (t' & _ & _ & _ & ?).
      - by destruct Hpc as (t' & _ & _ & _ & ?).
      - destruct Hpc as (t' & ? & ? & _). lia.
      - destruct Hpc as (t' & ? & ? & _). lia. }
    split; [done|]. cbn. unfold interrupt. rewrite Hd. by eexists.
  - intros Hd post. cbn. unfold interrupt. by rewrite Hd.
  - intros post s2 Hgo. pose proof (tm_finishes interval t0 s1 Hinv) as Hfin.
    destruct (exec [Step; Elapse interval; Step; Step; Step; Step] s1)
      as [s3|s3|] eqn:H6; [| |done].
    + rewrite (tm_exec_app _ _ _ _ H6) in Hgo. destruct Hfin as (_ & _ & Hd).
      cbn in Hgo. unfold interrupt in Hgo. by rewrite Hd in Hgo.
    + rewrite tm_exec_stop in Hgo by (rewrite H6; done). congruence.
Qed.

Lemma timer_interrupt_defined_while_alive_witness :
  exec [Spawn; Detach; Step; Elapse 60] (created 100 0)
  = Going (State (Thread None) false 100 (Sleeping 100) 60 [sleep_for 0 100]
                 false) ∧
  ∃ s2, exec [Interrupt]
             (State (Thread None) false 100 (Sleeping 100) 60 [sleep_for 0 100]
                    false) = Going s2 ∧
        m_interrupted s2 = true ∧ deleted s2 = false.
Proof.
  split; [reflexivity|].
  apply (proj1 (timer_interrupt_defined_while_alive 100 0
                  [Detach; Step; Elapse 60] _ eq_refl)).
  cbn. lia.
Defined.

End SelfDeletingTimerHazard.

(** ** UnionFind: find on any container, and what merge builds *)
Section UnionFindMore.
Context `{Countable T}.
Import UnionFind.
Implicit Types (m : gmap T T) (a b r x y : T).

(** What [find_rec] returns is the root, found within the fuel. *)
Lemma find_rec_sound fuel : ∀ m a r m',
  find_rec fuel m a = Some (r, m') → ∃ d, d ≤ fuel ∧ root_at m a r d.
Proof.
  induction fuel as [|fuel IH]; intros m a r m' Hfind; cbn in Hfind.
  - destruct (m !! a) eqn:Ha; [done|]. injection Hfind as <- <-.
    exists 0. split; [done|]. by apply root_at_here.
  - destruct (m !! a) as [f|] eqn:Ha.
    + destruct (find_rec fuel m f) as [[r1 m1]|] eqn:Hf; [|done].
      injection Hfind as <- <-. destruct (IH _ _ _ _ Hf) as (d & Hd & Hr).
      exists (S d). split; [lia|]. by eapply root_at_up.
    + injection Hfind as <- <-. exists 0. split; [lia|]. by apply root_at_here.
Qed.

(** Everything known of a [find] that returned. *)
Lemma find_returned m a r m' :
  find m a = Some (r, m') →
  root_of m a r ∧ same_roots m m' ∧ compressed m m' ∧ through m' a = r.
Proof.
  intros Hfind. destruct (find_rec_sound _ _ _ _ _ Hfind) as (d & Hd & Hr).
  destruct (find_rec_spec _ _ _ _ Hr (size m) Hd) as (m'' & Hfind' & Hrest).
  unfold find in Hfind. rewrite Hfind in Hfind'. injection Hfind' as ->.
  split; [by eapply root_at_of|done].
Qed.

Lemma compressed_lookup_is_Some m m' k :
  compressed m m' → is_Some (m' !! k) ↔ is_Some (m !! k).
Proof.
  intros Hc. destruct (Hc k) as [->|[Hk (r & _ & ->)]]; [done|].
  split; [done|by eexists].
Qed.

Lemma compressed_dom m m' : compressed m m' → dom m' = dom m.
Proof.
  intros Hc. apply set_eq. intros k. rewrite !elem_of_dom.
  by apply compressed_lookup_is_Some.
Qed.

Lemma compressed_size m m' : compressed m m' → size m' = size m.
Proof. intros Hc. by rewrite <- !size_dom, (compressed_dom _ _ Hc). Qed.

(** X10. On any container, also one handed to the constructor and not built
    by merge: find(a) returns exactly when the chain of fathers of a ends,
    and what it returns then is the element at the end of the chain, which
    has no father; on a chain that runs into a cycle the recursion does not
    end. *)
Theorem find_returns_iff_chain_ends m a :
  (find m a = None ↔ ¬ ∃ r, root_of m a r) ∧
  (∀ r m', find m a = Some (r, m') → root_of m a r ∧ m !! r = None) ∧
  (m !! a = Some a → find m a = None).
Proof.
  assert (Hnone : find m a = None ↔ ¬ ∃ r, root_of m a r).
  { split.
    - intros Hfind [r Hr]. destruct (root_of_at _ _ _ Hr) as [d Hd].
      destruct (find_rec_spec _ _ _ _ Hd (size m)) as (m' & Hfind' & _).
      + by eapply root_at_size.
      + unfold find in Hfind. congruence.
    - intros Hno. destruct (find m a) as [[r m']|] eqn:Hfind; [|done].
      exfalso. apply Hno. exists r. exact (proj1 (find_returned _ _ _ _ Hfind)). }
  split; [done|]. split.
  - intros r m' Hfind. destruct (find_returned _ _ _ _ Hfind) as (Hr & _).
    split; [done|]. by eapply root_of_is_root.
  - intros Ha. apply Hnone. intros [r Hr].
    destruct (root_of_at _ _ _ Hr) as [d Hd].
    inversion Hd as [? Hn|? f ? d' Hf Hd']; subst; [congruence|].
    assert (f = a) as -> by congruence.
    destruct (root_at_det _ _ _ _ _ _ Hd Hd') as [_ Heq]. lia.
Qed.

(** X11. On any container, a find(a) that has returned has done all the
    compression there is for a: a second find(a), and find on the root it
    returned, return the same root and leave the container as it is. *)
Theorem find_twice_changes_nothing m a r m' :
  find m a = Some (r, m') →
  find m' a = Some (r, m') ∧ find m' r = Some (r, m') ∧
  (m !! a = None → r = a ∧ m' = m) ∧
  (is_Some (m !! a) → m' !! a = Some r).
Proof.
  intros Hfind. destruct (find_returned _ _ _ _ Hfind) as (Hr & Hs & Hc & Ht).
  pose proof (root_of_is_root _ _ _ Hr) as Hroot.
  assert (Hroot' : m' !! r = None).
  { destruct (Hc r) as [->|[[? Hk] _]]; [done|congruence]. }
  assert (Hentry : is_Some (m !! a) → m' !! a = Some r).
  { intros Hk. apply (compressed_lookup_is_Some _ _ _ Hc) in Hk as [v Hv].
    unfold through in Ht. rewrite Hv in Ht. cbn in Ht. by subst v. }
  assert (Hfresh : m !! a = None → r = a ∧ m' = m).
  { intros Ha. rewrite (find_of_root _ _ Ha) in Hfind. by injection Hfind as <- <-. }
  split; [|split; [by apply find_of_root|done]].
  destruct (m !! a) as [f|] eqn:Ha.
  - specialize (Hentry ltac:(by eexists)). unfold find.
    destruct (size m') as [|k] eqn:Hsize.
    { apply map_size_empty_inv in Hsize. subst m'. by rewrite lookup_empty in Hentry. }
    cbn. rewrite Hentry.
    assert (find_rec k m' r = Some (r, m')) as ->.
    { destruct k; cbn; by rewrite Hroot'. }
    by rewrite insert_id.
  - destruct (Hfresh eq_refl) as [-> ->]. by apply find_of_root.
Qed.

(** X12. find(a) adds no entry to the container and removes none, and an
    entry it changes it changes to the root of its element; so every element
    keeps its root. *)
Theorem find_keeps_the_keys m a r m' :
  find m a = Some (r, m') →
  dom m' = dom m ∧ size m' = size m ∧
  (∀ k v, m' !! k = Some v → m !! k = Some v ∨ (is_Some (m !! k) ∧ root_of m k v)) ∧
  (∀ x rx, root_of m' x rx ↔ root_of m x rx).
Proof.
  intros Hfind. destruct (find_returned _ _ _ _ Hfind) as (_ & Hs & Hc & _).
  split; [by apply compressed_dom|]. split; [by apply compressed_size|].
  split; [|exact Hs].
  intros k v Hk. destruct (Hc k) as [Heq|[Hsome (r' & Hr' & Heq)]].
  - left. congruence.
  - right. split; [done|]. congruence.
Qed.

End UnionFindMore.

Lemma find_returns_iff_chain_ends_witness :
  UnionFind.root_of ({[1 := 2; 2 := 3]} : gmap nat nat) 1 3 ∧
  UnionFind.find ({[5 := 5]} : gmap nat nat) 5 = None.
Proof.
  split.
  - apply (proj1 (proj2 (find_returns_iff_chain_ends
             ({[1 := 2; 2 := 3]} : gmap nat nat) 1)) 3 {[1 := 3; 2 := 3]}).
    by vm_compute.
  - apply (proj2 (proj2 (find_returns_iff_chain_ends
             ({[5 := 5]} : gmap nat nat) 5))). by vm_compute.
Defined.

Lemma find_twice_changes_nothing_witness :
  UnionFind.find ({[1 := 3; 2 := 3]} : gmap nat nat) 1 = Some (3, {[1 := 3; 2 := 3]}).
Proof.
  apply (find_twice_changes_nothing ({[1 := 2; 2 := 3]} : gmap nat nat) 1 3
           {[1 := 3; 2 := 3]}).
  by vm_compute.
Defined.

Lemma find_keeps_the_keys_witness :
  dom ({[1 := 4; 2 := 4; 3 := 4]} : gmap nat nat)
    = dom ({[1 := 2; 2 := 3; 3 := 4]} : gmap nat nat).
Proof.
  apply (find_keeps_the_keys ({[1 := 2; 2 := 3; 3 := 4]} : gmap nat nat) 1 4
           {[1 := 4; 2 := 4; 3 := 4]}).
  by vm_compute.
Defined.

(** ** UnionFind: what merge builds *)
Section UnionFindMerge.
Context `{Countable T}.
Import UnionFind.
Implicit Types (m : gmap T T) (a b r x y : T).

Lemma forest_root m x : forest m → ∃ r, root m x = Some r ∧ root_of m x r.
Proof.
  intros Hf. destruct (Hf x) as [r Hr]. exists r. split; [|done].
  by apply root_spec.
Qed.

(** The components after [merge]: those of [a] and [b] have become one,
    the others are as they were. *)
Lemma merge_partition m a b ra rb :
  forest m → root m a = Some ra → root m b = Some rb →
  ∃ m1, merge m a b = Some m1 ∧ forest m1 ∧
        root m1 a = Some ra ∧ root m1 b = Some ra ∧
        ∀ x y, root m1 x = root m1 y ↔
               root m x = root m y ∨
               ((root m x = Some ra ∨ root m x = Some rb) ∧
                (root m y = Some ra ∨ root m y = Some rb)).
Proof.
  intros Hf Ha Hb.
  destruct (merge_roots m a b ra rb Hf Ha Hb) as (m1 & Hm & Hf1 & Hroots).
  exists m1. split; [done|]. split; [done|].
  split; [rewrite Hroots, Ha; cbn; by case_decide|].
  split; [rewrite Hroots, Hb; cbn; by rewrite decide_True|].
  intros x y. rewrite !Hroots.
  destruct (forest_root m x Hf) as (rx & -> & _).
  destruct (forest_root m y Hf) as (ry & -> & _). cbn.
  repeat case_decide; subst; split.
  all: try (intros [?|[[?|?] [?|?]]]; congruence).
  all: intros Heq;
    first [ left; congruence
          | right; split; first [left; congruence|right; congruence] ].
Qed.

Lemma joined_sub m1 (ops1 : list op) m2 (ops2 : list op) :
  (∀ x y r, root_of m1 x r → root_of m1 y r → joined m2 ops2 x y) →
  (∀ a b, Merge a b ∈ ops1 → joined m2 ops2 a b) →
  ∀ x y, joined m1 ops1 x y → joined m2 ops2 x y.
Proof.
  intros Hbase Hops x y. induction 1 as [x y r Hx Hy|a b Hab|x y _ IH|x y z _ IH1 _ IH2].
  - by eapply Hbase.
  - by apply Hops.
  - by apply joined_sym.
  - by eapply joined_trans.
Qed.

Lemma joined_root m x y :
  forest m → joined m [] x y ↔ root m x = root m y.
Proof.
  intros Hf. split.
  - induction 1 as [x y r Hx Hy|a b Hab|x y _ IH|x y z _ IH1 _ IH2].
    + apply root_spec in Hx, Hy; try done. congruence.
    + by apply elem_of_nil in Hab.
    + done.
    + congruence.
  - intros Heq. destruct (forest_root m x Hf) as (rx & Hx & Hrx).
    destruct (forest_root m y Hf) as (ry & Hy & Hry).
    assert (rx = ry) as -> by congruence. by eapply joined_before.
Qed.

(** After a list of calls on a forest two elements have one root exactly
    when the calls, or the forest, join them. *)
Lemma run_joined (ops : list op) : ∀ m0,
  forest m0 →
  ∃ m, run ops m0 = Some m ∧ forest m ∧
       ∀ x y, root m x = root m y ↔ joined m0 ops x y.
Proof.
  induction ops as [|o ops IH]; intros m0 Hf.
  - exists m0. split; [done|]. split; [done|]. intros x y.
    symmetry. by apply joined_root.
  - destruct o as [a|a b]; cbn [run apply].
    + destruct (find_spec m0 a Hf) as (r & m1 & Hfind & _ & Hs & _).
      rewrite Hfind. cbn.
      pose proof (same_roots_forest _ _ Hs Hf) as Hf1.
      destruct (IH m1 Hf1) as (m & Hrun & Hfm & Hiff).
      exists m. split; [done|]. split; [done|]. intros x y. rewrite Hiff.
      split; apply joined_sub.
      * intros x' y' r' Hx Hy. eapply joined_before; by apply Hs.
      * intros a' b' Hin. apply joined_merge. by apply list_elem_of_further.
      * intros x' y' r' Hx Hy. eapply joined_before; by apply Hs.
      * intros a' b' Hin. apply joined_merge.
        apply elem_of_cons in Hin as [?|?]; done.
    + destruct (forest_root m0 a Hf) as (ra & Ha & _).
      destruct (forest_root m0 b Hf) as (rb & Hb & _).
      destruct (merge_partition m0 a b ra rb Hf Ha Hb)
        as (m1 & Hm & Hf1 & Ha1 & Hb1 & Hpart).
      rewrite Hm. destruct (IH m1 Hf1) as (m & Hrun & Hfm & Hiff).
      exists m. split; [done|]. split; [done|]. intros x y. rewrite Hiff.
      assert (Hab : joined m0 (Merge a b :: ops) a b).
      { apply joined_merge. apply list_elem_of_here. }
      assert (Hto : ∀ z, root m0 z = Some ra ∨ root m0 z = Some rb →
                         joined m0 (Merge a b :: ops) z a).
      { intros z [Hz|Hz].
        - apply root_spec in Hz, Ha; try done. by eapply joined_before.
        - eapply joined_trans; [|apply joined_sym, Hab].
          apply root_spec in Hz, Hb; try done. by eapply joined_before. }
      split; apply joined_sub.
      * intros x' y' r' Hx Hy.
        assert (Heq : root m1 x' = root m1 y').
        { apply root_spec in Hx, Hy; try done. congruence. }
        apply Hpart in Heq as [Heq|[Hx' Hy']].
        -- destruct (forest_root m0 x' Hf) as (rx & Hrx & Hx0).
           rewrite Hrx in Heq. symmetry in Heq. apply root_spec in Heq; [|done].
           by eapply joined_before.
        -- eapply joined_trans; [by apply Hto|]. apply joined_sym. by apply Hto.
      * intros a' b' Hin. apply joined_merge. by apply list_elem_of_further.
      * intros x' y' r' Hx Hy.
        assert (Heq : root m1 x' = root m1 y').
        { apply Hpart. left. apply root_spec in Hx, Hy; try done. congruence. }
        destruct (forest_root m1 x' Hf1) as (rx & Hrx & Hx1).
        rewrite Hrx in Heq. symmetry in Heq. apply root_spec in Heq; [|done].
        by eapply joined_before.
      * intros a' b' Hin. apply elem_of_cons in Hin as [[= -> ->]|Hin].
        -- apply root_spec in Ha1, Hb1; try done. by eapply joined_before.
        -- by apply joined_merge.
Qed.

Lemma joined_empty_linked (ops : list op) x y :
  joined ∅ ops x y ↔ linked ops x y.
Proof.
  split.
  - induction 1 as [x y r Hx Hy|a b Hab|x y _ IH|x y z _ IH1 _ IH2].
    + assert (Hroot : ∀ z, root_of (∅ : gmap T T) z r → z = r).
      { intros z Hz. inversion Hz as [|? f ? Hl]; [done|].
        by rewrite lookup_empty in Hl. }
      rewrite (Hroot _ Hx), (Hroot _ Hy). apply linked_refl.
    + by apply linked_merge.
    + by apply linked_sym.
    + by eapply linked_trans.
  - induction 1 as [x|a b Hab|x y _ IH|x y z _ IH1 _ IH2].
    + eapply joined_before; apply root_here, lookup_empty.
    + by apply joined_merge.
    + by apply joined_sym.
    + by eapply joined_trans.
Qed.

(** X13. After any list of calls on a structure constructed empty, all of
    which return, find reports one root for two elements exactly when the
    two are related by the least equivalence containing every pair that was
    handed to merge: the structure answers connectivity under the unions
    made, no more and no less. *)
Theorem roots_decide_connectivity (ops : list op) :
  ∃ m, run ops ∅ = Some m ∧
       ∀ x y, root m x = root m y ↔ linked ops x y.
Proof.
  destruct (run_joined ops ∅ forest_empty) as (m & Hrun & _ & Hiff).
  exists m. split; [done|]. intros x y.
  by rewrite Hiff, joined_empty_linked.
Qed.

(** X14. After any list of calls on a structure constructed empty,
    merge(a, b) makes one component of the components of a and b and leaves
    the others as they are, and the root of the new component is the root a
    had.  merge(b, a) gives the same components under the root b had. *)
Theorem merge_joins_two_components (ops : list op) a b :
  ∃ m m1 m2 ra rb,
    run ops ∅ = Some m ∧ root m a = Some ra ∧ root m b = Some rb ∧
    merge m a b = Some m1 ∧ merge m b a = Some m2 ∧
    root m1 a = Some ra ∧ root m1 b = Some ra ∧
    root m2 a = Some rb ∧ root m2 b = Some rb ∧
    (∀ x y, root m1 x = root m1 y ↔
            root m x = root m y ∨
            ((root m x = Some ra ∨ root m x = Some rb) ∧
             (root m y = Some ra ∨ root m y = Some rb))) ∧
    (∀ x y, root m1 x = root m1 y ↔ root m2 x = root m2 y).
Proof.
  destruct (run_joined ops ∅ forest_empty) as (m & Hrun & Hf & _).
  destruct (forest_root m a Hf) as (ra & Ha & _).
  destruct (forest_root m b Hf) as (rb & Hb & _).
  destruct (merge_partition m a b ra rb Hf Ha Hb)
    as (m1 & Hm1 & _ & Ha1 & Hb1 & Hp1).
  destruct (merge_partition m b a rb ra Hf Hb Ha)
    as (m2 & Hm2 & _ & Hb2 & Ha2 & Hp2).
  exists m, m1, m2, ra, rb. repeat (split; [done|]).
  intros x y. rewrite Hp1, Hp2. tauto.
Qed.

(** X15. After any list of calls on a structure constructed empty,
    merge(a, b) adds exactly one entry to the container when a and b have
    different roots and none when they have the same root; the entry it
    adds gives the root of b the root of a as father. *)
Theorem merge_adds_one_entry_per_union (ops : list op) a b :
  ∃ m m1 ra rb,
    run ops ∅ = Some m ∧ root m a = Some ra ∧ root m b = Some rb ∧
    merge m a b = Some m1 ∧
    size m1 = size m + (if decide (ra = rb) then 0 else 1) ∧
    (ra ≠ rb → m !! rb = None ∧ m1 !! rb = Some ra) ∧
    m1 !! ra = None.
Proof.
  destruct (run_joined ops ∅ forest_empty) as (m & Hrun & Hf & _).
  destruct (merge_spec m a b Hf) as (ra & rb & m2 & Hra & Hrb & Hs & Hc & Hm).
  exists m, (if decide (ra ≠ rb) then <[rb:=ra]> m2 else m2), ra, rb.
  split; [done|].
  split; [by apply root_spec|]. split; [by apply root_spec|].
  split; [exact Hm|].
  assert (Hra2 : m2 !! ra = None).
  { eapply root_of_is_root. by apply Hs. }
  assert (Hrb2 : m2 !! rb = None).
  { eapply root_of_is_root. by apply Hs. }
  rewrite <- (compressed_size _ _ Hc).
  destruct (decide (ra = rb)) as [->|Hne].
  - rewrite decide_False by (by intros ?). split; [lia|]. done.
  - rewrite decide_True by done.
    split; [rewrite map_size_insert_None by done; lia|]. split.
    + intros _. split; [by eapply root_of_is_root|apply lookup_insert_eq].
    + by rewrite lookup_insert_ne.
Qed.

End UnionFindMerge.

Lemma merge_adds_one_entry_per_union_witness :
  ∃ m m1 : gmap nat nat,
    UnionFind.run [UnionFind.Merge 1 2; UnionFind.Merge 3 4] ∅ = Some m ∧
    UnionFind.merge m 2 4 = Some m1 ∧ size m1 = size m + 1 ∧
    m1 !! 3 = Some 1.
Proof.
  destruct (merge_adds_one_entry_per_union
              [UnionFind.Merge 1 2; UnionFind.Merge 3 4] 2 4)
    as (m & m1 & ra & rb & Hrun & Ha & Hb & Hm & Hsize & Hentry & _).
  exists m, m1. split; [exact Hrun|]. split; [exact Hm|].
  assert (Hm0 : m = {[2 := 1; 4 := 3]}).
  { assert (Hc : UnionFind.run [UnionFind.Merge 1 2; UnionFind.Merge 3 4]
                   (∅ : gmap nat nat) = Some {[2 := 1; 4 := 3]}) by (by vm_compute).
    rewrite Hc in Hrun. by injection Hrun as <-. }
  subst m.
  assert (ra = 1) as -> by (vm_compute in Ha; by injection Ha as <-).
  assert (rb = 3) as -> by (vm_compute in Hb; by injection Hb as <-).
  split; [exact Hsize|]. by apply Hentry.
Defined.

(** ** Singleton: which object get() returns *)
Section SingletonMore.
Context {T Args : Type} (construct : Args → option T).
Import Singleton.

Abbreviation run' := (Singleton.run construct).
Abbreviation built' := (Singleton.built construct).

Lemma built_app (h1 h2 : list op) : built' (h1 ++ h2) = built' h1 + built' h2.
Proof.
  induction h1 as [|o h1 IH]; [done|].
  destruct o as [args| | |]; cbn; rewrite ?IH; try done. lia.
Qed.

Lemma singleton_run_app (h1 h2 : list op) (s : @state T) :
  run' (h1 ++ h2) s = run' h2 (run' h1 s).
Proof. unfold Singleton.run. by rewrite foldl_app. Qed.

(** Objects are numbered in the order in which they are built, and the one
    in the slot was built before any that is still to come. *)
Lemma allocations_built (h : list op) :
  allocations (run' h initial) = built' h ∧
  ∀ i, _singleton (run' h initial) = Some i → serial i < built' h.
Proof.
  induction h as [|o h [IHa IHs]] using rev_ind; [done|].
  rewrite singleton_run_app, built_app. cbn.
  destruct o as [args| | |]; cbn.
  - unfold Singleton.init. destruct (construct args); cbn.
    + split; [lia|]. intros i [= <-]. cbn. lia.
    + split; [lia|]. intros i Hi. specialize (IHs i Hi). lia.
  - split; [lia|]. intros i Hi. specialize (IHs i Hi). lia.
  - split; [lia|]. intros i Hi. specialize (IHs i Hi). lia.
  - split; [lia|]. done.
Qed.

Lemma idle_run (h' : list op) (s : @state T) :
  Forall (λ o, idle construct o = true) h' → run' h' s = s.
Proof.
  revert s. induction h' as [|o h' IH]; intros s Hidle; [done|].
  apply Forall_cons in Hidle as [Ho Hidle].
  change (run' (o :: h') s) with (run' h' (apply construct o s)).
  rewrite IH by done. destruct o as [args| | |]; cbn in *; try done.
  unfold Singleton.init. by destruct (construct args).
Qed.

(** X16. After any history, get() returns the object built by the latest
    init() whose constructor returned, provided no kill() came after it:
    an init() on an initialised singleton replaces the instance, and an
    init() whose constructor throws leaves the earlier instance in place.
    The objects are numbered as they are built, so the one returned is the
    n-th when n constructors had returned before. *)
Theorem get_returns_latest_init (h h' : list op) (args : Args) (v : T) :
  construct args = Some v →
  Forall (λ o, idle construct o = true) h' →
  get (run' (h ++ Init args :: h') initial) = Ok (Instance (built' h) v) ∧
  allocations (run' (h ++ Init args :: h') initial) = S (built' h).
Proof.
  intros Hv Hidle.
  rewrite singleton_run_app.
  change (run' (Init args :: h') (run' h initial))
    with (run' h' (apply construct (Init args) (run' h initial))).
  rewrite idle_run by done. cbn. unfold Singleton.init. rewrite Hv. cbn.
  destruct (allocations_built h) as [-> _]. done.
Qed.

End SingletonMore.

Lemma get_returns_latest_init_witness :
  let ctor := λ n : nat, if decide (n = 0) then None else Some n in
  Singleton.get (Singleton.run ctor
     ([Singleton.Init 5; Singleton.Kill; Singleton.Init 6] ++
      Singleton.Init 7 :: [Singleton.Get; Singleton.Init 0]) Singleton.initial)
    = Singleton.Ok (Singleton.Instance 2 7).
Proof.
  intros ctor.
  apply (get_returns_latest_init ctor
           [Singleton.Init 5; Singleton.Kill; Singleton.Init 6]
           [Singleton.Get; Singleton.Init 0] 7 7 eq_refl).
  repeat constructor.
Defined.

(** ** NotifiedPulser: destruction *)
Section NotifiedPulserDestruction.
Import Sync Sync.NotifiedPulser.

Lemma np_dying_event (e : event) (s s' : state) :
  dying_event e s = Some s' → s' = on_event e s ∧ ticked s' = ticked s.
Proof.
  destruct s as [i [w] p t]. destruct e; cbn.
  - unfold dying_step, run_step. cbn.
    destruct p; try done; intros [= <-]; cbn; try done.
    + unfold wait_poll. cbn. by destruct w.
    + by destruct i.
  - by intros [= <-].
  - by intros [= <-].
Qed.

Lemma np_dying_exec (sch : list event) (s s' : state) :
  dying_exec sch s = Some s' → s' = exec sch s ∧ ticked s' = ticked s.
Proof.
  revert s. induction sch as [|e sch IH]; intros s Hex.
  - by injection Hex as <-.
  - cbn in Hex. destruct (dying_event e s) as [s1|] eqn:He; [|done].
    apply np_dying_event in He as [-> Ht]. apply IH in Hex as [-> Ht'].
    split; [done|congruence].
Qed.

Lemma np_dying_app (a b : list event) (s : state) :
  dying_exec (a ++ b) s
  = match dying_exec a s with
    | Some s1 => dying_exec b s1
    | None => None
    end.
Proof.
  revert s. induction a as [|e a IH]; intros s; [done|].
  cbn. destruct (dying_event e s); [apply IH|done].
Qed.

(** A loop that stands before its call of tick() makes it at its next
    step. *)
Lemma np_dying_at_tick (sch : list event) (s : state) :
  at_ s = AtTick → dying_exec sch s = None ↔ Step ∈ sch.
Proof.
  revert s. induction sch as [|e sch IH]; intros s Hat.
  - split; [done|]. by intros ?%elem_of_nil.
  - destruct e; cbn.
    + unfold dying_step. rewrite Hat. split; [intros _; left|done].
    + rewrite IH by done. split; [by right|].
      intros [?|?]%elem_of_cons; done.
    + rewrite IH by done. split; [by right|].
      intros [?|?]%elem_of_cons; done.
Qed.

(** With the flag up the loop does not come to a call of tick() any more. *)
Lemma np_dying_flag_up (sch : list event) (s : state) :
  m_interrupted s = true → at_ s ≠ AtTick → is_Some (dying_exec sch s).
Proof.
  revert s. induction sch as [|e sch IH]; intros s Hi Hat; [done|].
  destruct s as [i [w] p t]. cbn in Hi, Hat. subst i.
  destruct e; cbn.
  - unfold dying_step, run_step. cbn. destruct p; try done; cbn.
    + unfold wait_poll. cbn. destruct w; by apply IH.
    + by apply IH.
    + by apply IH.
  - by apply IH.
  - by apply IH.
Qed.

(** X18. The destructor of a NotifiedPulser raises the flag and wakes the
    loop, but waits for nothing.  It ends in std::terminate exactly when the
    worker is still attached, kill() notwithstanding, or the loop comes to
    its call of tick() while the destructor runs: a step at that call before
    interrupt(), or a loop that stood at the call when interrupt() was made
    and steps afterwards.  Otherwise it completes: no tick() was called
    meanwhile, the flag is up, and the loop has returned if it took two steps
    during the pause, and stands where it stood if it took none at all,
    still inside run() unless it had returned before. *)
Theorem destructor_kills_but_does_not_join (h : list thread_op)
    (w : PolymorphicThread) (pre mid pause : list event) (s : state) :
  replay h thread_new = Some w →
  (destructor w pre mid pause s = Terminates ↔
   attached h = true ∨ dying_exec pre s = None ∨
   ∃ s1, dying_exec pre s = Some s1 ∧ at_ s1 = AtTick ∧ Step ∈ mid ++ pause) ∧
  (destructor w pre mid pause s = Terminates ∨
   destructor w pre mid pause s
   = Returns (exec (pre ++ Interrupt :: mid ++ Wakeup :: pause) s)) ∧
  (∀ s', destructor w pre mid pause s = Returns s' →
     attached h = false ∧ m_interrupted s' = true ∧ ticked s' = ticked s ∧
     (2 ≤ steps pause → at_ s' = Returned) ∧
     (Step ∉ pre ++ mid ++ pause → at_ s' = at_ s)).
Proof.
  intros Hh.
  assert (Hd : destroy w = if attached h then Terminates else Returns tt).
  { unfold destroy. rewrite (replay_handle h w Hh). by destruct (attached h). }
  assert (Hrun : dying_exec (pre ++ Interrupt :: mid ++ Wakeup :: pause) s = None ↔
                 dying_exec pre s = None ∨
                 ∃ s1, dying_exec pre s = Some s1 ∧ at_ s1 = AtTick ∧
                       Step ∈ mid ++ pause).
  { rewrite np_dying_app. destruct (dying_exec pre s) as [s1|]; cycle 1.
    { split; [by left|done]. }
    change (dying_exec (Interrupt :: mid ++ Wakeup :: pause) s1)
      with (dying_exec (mid ++ Wakeup :: pause) (interrupt s1)).
    destruct (at_ s1) eqn:Hat.
    1,2,4: split;
      [intros Hn;
       destruct (np_dying_flag_up (mid ++ Wakeup :: pause) (interrupt s1))
         as [? Hs]; [done|cbn; by rewrite Hat|congruence]
      |intros [?|(s2 & [= <-] & ? & _)]; congruence].
    rewrite np_dying_at_tick by done. split.
    - intros Hin. right. exists s1. split; [done|]. split; [done|].
      apply elem_of_app in Hin as [?|Hin]; apply elem_of_app; [by left|].
      apply elem_of_cons in Hin as [?|?]; [done|by right].
    - intros [?|(s2 & [= <-] & _ & Hin)]; [done|].
      apply elem_of_app in Hin as [?|?]; apply elem_of_app; [by left|].
      right. by right. }
  unfold destructor. rewrite Hd.
  destruct (dying_exec (pre ++ Interrupt :: mid ++ Wakeup :: pause) s)
    as [s2|] eqn:Hex.
  - apply np_dying_exec in Hex as Hs2. destruct Hs2 as [Hs2 Ht].
    assert (Hno : ¬ (dying_exec pre s = None ∨
                     ∃ s1, dying_exec pre s = Some s1 ∧ at_ s1 = AtTick ∧
                           Step ∈ mid ++ pause)).
    { intros Hyes. apply Hrun in Hyes. congruence. }
    destruct (attached h) eqn:Ha.
    + split; [split; [by left|done]|]. split; [by left|]. done.
    + split; [split; [done|by intros [?|?]]|]. split; [right; congruence|].
      intros s' [= <-]. split; [done|].
      set (sk := wakeup (exec mid (interrupt (exec pre s)))).
      assert (Hk : exec (pre ++ Interrupt :: mid ++ Wakeup :: pause) s
                   = exec pause sk).
      { rewrite np_exec_app.
        change (exec (Interrupt :: mid ++ Wakeup :: pause) (exec pre s))
          with (exec (mid ++ Wakeup :: pause) (interrupt (exec pre s))).
        by rewrite np_exec_app. }
      split; [|split; [done|split]].
      * rewrite Hs2, np_exec_app.
        change (exec (Interrupt :: mid ++ Wakeup :: pause) (exec pre s))
          with (exec (mid ++ Wakeup :: pause) (interrupt (exec pre s))).
        by apply np_interrupted_stays.
      * intros Hsteps. rewrite Hs2, Hk.
        assert (Hdoom : doomed sk).
        { split; [|done]. subst sk. cbn. by apply np_interrupted_stays. }
        destruct (np_countdown pause _ Hdoom) as [_ Hle].
        apply np_distance_0.
        assert (Hdist : distance sk ≤ 2); [|lia].
        (* the loop does not stand at its call of tick() when the pause
           begins: the two steps of the pause would have made the call *)
        unfold distance.
        destruct (at_ sk) eqn:Hat; try lia.
        exfalso.
        replace (pre ++ Interrupt :: mid ++ Wakeup :: pause)
          with ((pre ++ Interrupt :: mid ++ [Wakeup]) ++ pause) in Hex
          by (rewrite <- app_assoc; cbn; by rewrite <- app_assoc).
        rewrite np_dying_app in Hex.
        destruct (dying_exec (pre ++ Interrupt :: mid ++ [Wakeup]) s)
          as [s3|] eqn:H3; [|done].
        apply np_dying_exec in H3 as [H3 _].
        assert (s3 = sk) as ->.
        { rewrite H3, np_exec_app.
          change (exec (Interrupt :: mid ++ [Wakeup]) (exec pre s))
            with (exec (mid ++ [Wakeup]) (interrupt (exec pre s))).
          by rewrite np_exec_app. }
        assert (Step ∈ pause) as Hin.
        { clear -Hsteps. induction pause as [|e pause IH]; [cbn in Hsteps; lia|].
          destruct e; [left|right; apply IH; cbn in Hsteps; lia..]. }
        apply (np_dying_at_tick pause _ Hat) in Hin. congruence.
      * intros Hnone. rewrite Hs2.
        assert (Step ∉ pre ++ Interrupt :: mid ++ Wakeup :: pause) as Hn.
        { intros Hin. apply Hnone.
          apply elem_of_app in Hin as [?|Hin]; apply elem_of_app; [by left|].
          right. apply elem_of_cons in Hin as [?|Hin]; [done|].
          apply elem_of_app in Hin as [?|Hin]; apply elem_of_app; [by left|].
          right. apply elem_of_cons in Hin as [?|Hin]; done. }
        by destruct (np_others _ s Hn) as [-> _].
  - split; [|split; [by left|done]].
    split; [|done]. intros _. right. by apply Hrun.
Qed.

Lemma destructor_kills_but_does_not_join_witness :
  destructor (Thread None) [] [] [Step; Step] (wakeup started)
  = Returns (State true notifiable_new Returned 0) ∧
  destructor (Thread None) [Step; Step] [] [Step] (wakeup started) = Terminates ∧
  attached [Start; Detach] = false.
Proof.
  split; [reflexivity|]. split; [reflexivity|].
  apply (proj2 (proj2 (destructor_kills_but_does_not_join [Start; Detach]
                         (Thread None) [] [] [Step; Step] (wakeup started)
                         eq_refl)) (State true notifiable_new Returned 0)).
  reflexivity.
Defined.

End NotifiedPulserDestruction.
